(** * DisputedTx: vote tally and avalanche decision of a disputed transaction

    A shallow embedding of [ripple::DisputedTx<Traits>]
    (src/ripple/app/ledger/impl/DisputedTx.h) and the properties of its
    vote tally ([setVote], [unVote]), of its decision step ([updateVote])
    and of its diagnostic snapshot ([getJson]). *)

From stdpp Require Import gmap strings list fin_maps pretty.
From Stdlib Require Import ZArith Lia.

Set Warnings "-register-all,-clear-no-such-hyp".
Local Open Scope Z_scope.

(** ** The C++ [int]

    [mYays], [mNays], [weight] and [percentTime] are [int]s.  They are
    modelled as [Z]; every arithmetic operation of the source is followed by
    the reduction into the 32-bit two's complement range.  Signed overflow
    is undefined in C++: the theorems about counters and weights state the
    range in which no operation leaves the interval, so none of them relies
    on what [wrap] does outside of it. *)
Module CInt.

Definition INT_MIN : Z := - 2 ^ 31.
Definition INT_MAX : Z := 2 ^ 31 - 1.

Definition wrap (z : Z) : Z := (z + 2 ^ 31) mod 2 ^ 32 - 2 ^ 31.

Definition in_range (z : Z) : Prop := INT_MIN <= z <= INT_MAX.

(** [a + b], [a - b], [a * b] *)
Definition add (a b : Z) : Z := wrap (a + b).
Definition sub (a b : Z) : Z := wrap (a - b).
Definition mul (a b : Z) : Z := wrap (a * b).
(** [a / b]: the quotient truncated towards zero.  A zero divisor, which
    C++ leaves undefined, does not occur in line 171 on non-negative
    counters ([proposingWeight_divisor]). *)
Definition div (a b : Z) : Z := wrap (a ÷ b).

(** [++x], [--x] *)
Definition incr (x : Z) : Z := add x 1.
Definition decr (x : Z) : Z := sub x 1.

(** [x] is an [int] that [++x], respectively [--x], does not overflow. *)
Definition incr_ok (x : Z) : Prop := INT_MIN <= x < INT_MAX.
Definition decr_ok (x : Z) : Prop := INT_MIN < x <= INT_MAX.

End CInt.

(** ** Json::Value

    The part of [Json::Value] that [getJson] builds: integers, booleans and
    objects.  An object is a map from member names to values;
    [operator[]] followed by an assignment sets one member. *)
Inductive JsonValue : Type :=
| JInt (n : Z)
| JBool (b : bool)
| JObject (members : gmap string JsonValue).

(** [Json::Value (Json::objectValue)] *)
Definition objectValue : JsonValue := JObject ∅.

(** [obj[key] = v].  Every value this is applied to in [getJson] is an
    object. *)
Definition json_set (key : string) (v : JsonValue) (obj : JsonValue) : JsonValue :=
  match obj with
  | JObject members => JObject (<[key := v]> members)
  | _ => obj
  end.

(** ** The avalanche schedule

    [AV_MID_CONSENSUS_TIME] and the like are defined outside of
    DisputedTx.h; the model takes them as a parameter of [updateVote]. *)
Record AvalancheParams : Type := {
  AV_INIT_CONSENSUS_PCT : Z;
  AV_MID_CONSENSUS_TIME : Z;
  AV_MID_CONSENSUS_PCT : Z;
  AV_LATE_CONSENSUS_TIME : Z;
  AV_LATE_CONSENSUS_PCT : Z;
  AV_STUCK_CONSENSUS_TIME : Z;
  AV_STUCK_CONSENSUS_PCT : Z
}.

(** Severity of the journal stream a message is written to:
    [j_.debug()] or [j_.info()]. *)
Inductive Severity : Type := kDebug | kInfo.

Section DisputedTx.

(** [Traits]: the transaction, its identifier, and the identifier of a
    peer, which is the key of a [hash_map]. *)
Context {Tx_t TxID_t NodeID_t : Type}.
Context `{!EqDecision NodeID_t, !Countable NodeID_t}.
Context {Journal : Type}.

(** [tx.getID ()], of [Tx_t] *)
Variable Tx_getID : Tx_t → TxID_t.
(** [to_string (peer)] *)
Variable to_string : NodeID_t → string.

Variable av : AvalancheParams.

Record DisputedTx : Type := {
  mTransactionID : TxID_t;
  mYays : Z;
  mNays : Z;
  mOurVote : bool;
  transaction : Tx_t;
  mVotes : gmap NodeID_t bool;
  j_ : Journal
}.

(** What the code streams into the journal, one constructor per [JLOG]
    statement of the source.  Which severities the journal keeps is the
    journal's matter: the model records every line the code offers. *)
Inductive LogMsg : Type :=
| PeerVotes (peer : NodeID_t) (yes : bool) (id : TxID_t)
| PeerNowVotes (peer : NodeID_t) (yes : bool) (id : TxID_t)
| NoChange (ourVote : bool) (weight percent : Z)
| WeNowVote (yes : bool) (id : TxID_t)
| JsonDump (j : JsonValue).

Definition LogLine : Type := Severity * LogMsg.

(** *** Member functions as state transformers

    A member function maps the object before the call to its return
    value, the object after the call, and the lines it wrote to the
    journal. *)
Definition Method (A : Type) : Type := DisputedTx → A * DisputedTx * list LogLine.

Definition ret {A} (a : A) : Method A := λ s, (a, s, []).

Definition bind {A B} (m : Method A) (f : A → Method B) : Method B :=
  λ s, let '(a, s1, l1) := m s in
       let '(b, s2, l2) := f a s1 in
       (b, s2, l1 ++ l2).

Definition this : Method DisputedTx := λ s, (s, s, []).
Definition modify (f : DisputedTx → DisputedTx) : Method unit := λ s, (tt, f s, []).
Definition JLOG (sev : Severity) (msg : LogMsg) : Method unit := λ s, (tt, s, [(sev, msg)]).

Definition result {A} (r : A * DisputedTx * list LogLine) : A := r.1.1.
Definition after {A} (r : A * DisputedTx * list LogLine) : DisputedTx := r.1.2.
Definition logged {A} (r : A * DisputedTx * list LogLine) : list LogLine := r.2.

Notation "x <- m ;; k" := (bind m (λ x, k))
  (at level 100, m at next level, right associativity).
Notation "m ;;; k" := (bind m (λ _, k))
  (at level 100, right associativity).

(** Assignments to the data members. *)
Definition set_mYays (v : Z) (s : DisputedTx) : DisputedTx :=
  {| mTransactionID := mTransactionID s; mYays := v; mNays := mNays s;
     mOurVote := mOurVote s; transaction := transaction s;
     mVotes := mVotes s; j_ := j_ s |}.
Definition set_mNays (v : Z) (s : DisputedTx) : DisputedTx :=
  {| mTransactionID := mTransactionID s; mYays := mYays s; mNays := v;
     mOurVote := mOurVote s; transaction := transaction s;
     mVotes := mVotes s; j_ := j_ s |}.
Definition set_mOurVote (v : bool) (s : DisputedTx) : DisputedTx :=
  {| mTransactionID := mTransactionID s; mYays := mYays s; mNays := mNays s;
     mOurVote := v; transaction := transaction s;
     mVotes := mVotes s; j_ := j_ s |}.
Definition set_mVotes (v : gmap NodeID_t bool) (s : DisputedTx) : DisputedTx :=
  {| mTransactionID := mTransactionID s; mYays := mYays s; mNays := mNays s;
     mOurVote := mOurVote s; transaction := transaction s;
     mVotes := v; j_ := j_ s |}.

(** *** Constructor and accessors *)

(** [DisputedTx (tx, ourVote, j)] *)
Definition construct (tx : Tx_t) (ourVote : bool) (j : Journal) : DisputedTx :=
  {| mTransactionID := Tx_getID tx; mYays := 0; mNays := 0; mOurVote := ourVote;
     transaction := tx; mVotes := ∅; j_ := j |}.

Definition getID : Method TxID_t := s <- this ;; ret (mTransactionID s).
Definition getOurVote : Method bool := s <- this ;; ret (mOurVote s).
Definition tx : Method Tx_t := s <- this ;; ret (transaction s).
Definition setOurVote (o : bool) : Method unit := modify (set_mOurVote o).

(** *** The hash_map operations the source uses

    An iterator to the entry of [peer] is modelled by [peer] itself. *)

(** [mVotes.insert (std::make_pair (peer, votesYes))]: the pair of the
    value now stored at [peer] ([res.first->second]) and whether the
    insertion took place ([res.second]). *)
Definition mVotes_insert (peer : NodeID_t) (votesYes : bool) : Method (bool * bool) :=
  λ s, match mVotes s !! peer with
       | None => ((votesYes, true), set_mVotes (<[peer := votesYes]> (mVotes s)) s, [])
       | Some stored => ((stored, false), s, [])
       end.

(** [it->second = v] *)
Definition mVotes_assign (peer : NodeID_t) (v : bool) : Method unit :=
  modify (λ s, set_mVotes (<[peer := v]> (mVotes s)) s).

(** [mVotes.find (peer)]: [None] is [mVotes.end ()]. *)
Definition mVotes_find (peer : NodeID_t) : Method (option bool) :=
  s <- this ;; ret (mVotes s !! peer).

(** [mVotes.erase (it)] *)
Definition mVotes_erase (peer : NodeID_t) : Method unit :=
  modify (λ s, set_mVotes (delete peer (mVotes s)) s).

(** [mVotes.empty ()] *)
Definition mVotes_empty (s : DisputedTx) : bool := bool_decide (mVotes s = ∅).

(** *** setVote *)
Definition setVote (peer : NodeID_t) (votesYes : bool) : Method unit :=
  res <- mVotes_insert peer votesYes ;;
  s <- this ;;
  if res.2 then
    (* new vote *)
    if votesYes then
      JLOG kDebug (PeerVotes peer true (mTransactionID s)) ;;;
      modify (λ s, set_mYays (CInt.incr (mYays s)) s)
    else
      JLOG kDebug (PeerVotes peer false (mTransactionID s)) ;;;
      modify (λ s, set_mNays (CInt.incr (mNays s)) s)
  else if votesYes && negb res.1 then
    (* changes vote to yes *)
    JLOG kDebug (PeerNowVotes peer true (mTransactionID s)) ;;;
    modify (λ s, set_mNays (CInt.decr (mNays s)) s) ;;;
    modify (λ s, set_mYays (CInt.incr (mYays s)) s) ;;;
    mVotes_assign peer true
  else if negb votesYes && res.1 then
    (* changes vote to no *)
    JLOG kDebug (PeerNowVotes peer false (mTransactionID s)) ;;;
    modify (λ s, set_mNays (CInt.incr (mNays s)) s) ;;;
    modify (λ s, set_mYays (CInt.decr (mYays s)) s) ;;;
    mVotes_assign peer false
  else
    ret tt.

(** *** unVote *)
Definition unVote (peer : NodeID_t) : Method unit :=
  it <- mVotes_find peer ;;
  match it with
  | Some second =>
      (if second then modify (λ s, set_mYays (CInt.decr (mYays s)) s)
       else modify (λ s, set_mNays (CInt.decr (mNays s)) s)) ;;;
      mVotes_erase peer
  | None => ret tt
  end.

(** *** getJson *)
Definition getJson : Method JsonValue :=
  s <- this ;;
  let ret0 := objectValue in
  let ret1 := json_set "yays" (JInt (mYays s)) ret0 in
  let ret2 := json_set "nays" (JInt (mNays s)) ret1 in
  let ret3 := json_set "our_vote" (JBool (mOurVote s)) ret2 in
  if negb (mVotes_empty s) then
    let votesj :=
      map_fold (λ first second votesj, json_set (to_string first) (JBool second) votesj)
               objectValue (mVotes s) in
    ret (json_set "votes" votesj ret3)
  else
    ret ret3.

(** *** updateVote *)

(** The bracket of the schedule and the comparison with its threshold
    (lines 179-186). *)
Definition proposingPosition (weight percentTime : Z) : bool :=
  if percentTime <? AV_MID_CONSENSUS_TIME av then
    weight >? AV_INIT_CONSENSUS_PCT av
  else if percentTime <? AV_LATE_CONSENSUS_TIME av then
    weight >? AV_MID_CONSENSUS_PCT av
  else if percentTime <? AV_STUCK_CONSENSUS_TIME av then
    weight >? AV_LATE_CONSENSUS_PCT av
  else
    weight >? AV_STUCK_CONSENSUS_PCT av.

(** [weight] of the proposing branch (line 171). *)
Definition proposingWeight (s : DisputedTx) : Z :=
  CInt.div
    (CInt.add (CInt.mul (mYays s) 100) (if mOurVote s then 100 else 0))
    (CInt.add (CInt.add (mNays s) (mYays s)) 1).

(** The locals [weight] and [newPosition] after lines 165-193. *)
Definition weigh (percentTime : Z) (proposing : bool) (s : DisputedTx) : Z * bool :=
  if proposing then
    (* give ourselves full weight *)
    let weight := proposingWeight s in
    (weight, proposingPosition weight percentTime)
  else
    (* don't let us outweigh a proposing node, just recognize consensus *)
    (-1, mYays s >? mNays s).

(** Lines 165-209: what follows the two early returns. *)
Definition decidePosition (percentTime : Z) (proposing : bool) : Method bool :=
  s <- this ;;
  let '(weight, newPosition) := weigh percentTime proposing s in
  if eqb newPosition (mOurVote s) then
    JLOG kInfo (NoChange (mOurVote s) weight percentTime) ;;;
    j <- getJson ;;
    JLOG kDebug (JsonDump j) ;;;
    ret false
  else
    modify (set_mOurVote newPosition) ;;;
    s <- this ;;
    JLOG kDebug (WeNowVote (mOurVote s) (mTransactionID s)) ;;;
    j <- getJson ;;
    JLOG kDebug (JsonDump j) ;;;
    ret true.

Definition updateVote (percentTime : Z) (proposing : bool) : Method bool :=
  s <- this ;;
  if mOurVote s && (mNays s =? 0) then ret false
  else if negb (mOurVote s) && (mYays s =? 0) then ret false
  else decidePosition percentTime proposing.

(** *** Notions the properties are stated with *)

(** The threshold the weight is compared with at [percentTime]: the
    right-hand side of the comparison that [proposingPosition] selects. *)
Definition neededWeight (percentTime : Z) : Z :=
  if percentTime <? AV_MID_CONSENSUS_TIME av then AV_INIT_CONSENSUS_PCT av
  else if percentTime <? AV_LATE_CONSENSUS_TIME av then AV_MID_CONSENSUS_PCT av
  else if percentTime <? AV_STUCK_CONSENSUS_TIME av then AV_LATE_CONSENSUS_PCT av
  else AV_STUCK_CONSENSUS_PCT av.

(** One of the two early returns of [updateVote] is taken. *)
Definition guard_fires (s : DisputedTx) : Prop :=
  (mOurVote s = true ∧ mNays s = 0) ∨ (mOurVote s = false ∧ mYays s = 0).

(** The early returns are a shortcut at [s]: taking them gives the return
    value and the object that lines 165-209 would give. *)
Definition early_exit_is_shortcut
    (percentTime : Z) (proposing : bool) (s : DisputedTx) : Prop :=
  guard_fires s →
  result (updateVote percentTime proposing s)
    = result (decidePosition percentTime proposing s) ∧
  after (updateVote percentTime proposing s)
    = after (decidePosition percentTime proposing s).

(** The counters are non-negative and no operation of line 171
    overflows. *)
Definition weight_no_overflow (s : DisputedTx) : Prop :=
  0 <= mYays s ∧ 0 <= mNays s ∧
  mYays s * 100 + 100 <= CInt.INT_MAX ∧
  mNays s + mYays s + 1 <= CInt.INT_MAX.

(** The counter that tallies the votes equal to [v]. *)
Definition counter (v : bool) (s : DisputedTx) : Z :=
  if v then mYays s else mNays s.

(** The members the tally never assigns. *)
Definition tally_frame (s s' : DisputedTx) : Prop :=
  mTransactionID s' = mTransactionID s ∧ transaction s' = transaction s ∧
  mOurVote s' = mOurVote s ∧ j_ s' = j_ s.

(** The entries of [mVotes] with vote [v]. *)
Definition votes_for (v : bool) (m : gmap NodeID_t bool) : gmap NodeID_t bool :=
  filter (λ kv, kv.2 = v) m.

(** The counters agree with the map. *)
Definition tally_consistent (s : DisputedTx) : Prop :=
  mYays s = Z.of_nat (size (votes_for true (mVotes s))) ∧
  mNays s = Z.of_nat (size (votes_for false (mVotes s))).

(** A call of [setVote] or of [unVote], and the object after a sequence
    of them. *)
Inductive TallyCall : Type :=
| CallSetVote (peer : NodeID_t) (votesYes : bool)
| CallUnVote (peer : NodeID_t).

Definition call (c : TallyCall) : Method unit :=
  match c with
  | CallSetVote peer votesYes => setVote peer votesYes
  | CallUnVote peer => unVote peer
  end.

Definition calls (cs : list TallyCall) (s : DisputedTx) : DisputedTx :=
  foldl (λ s c, after (call c s)) s cs.

(** The peers a sequence of calls registers a vote of. *)
Definition voters (cs : list TallyCall) : gset NodeID_t :=
  foldr (λ c X, match c with
                | CallSetVote peer _ => {[ peer ]} ∪ X
                | CallUnVote _ => X
                end) ∅ cs.

(** The peer a call of the tally is about. *)
Definition call_peer (c : TallyCall) : NodeID_t :=
  match c with
  | CallSetVote peer _ => peer
  | CallUnVote peer => peer
  end.

(** A call of any public member function, and the object after a sequence
    of them. *)
Inductive ApiCall : Type :=
| ApiGetID
| ApiGetOurVote
| ApiTx
| ApiSetOurVote (o : bool)
| ApiSetVote (peer : NodeID_t) (votesYes : bool)
| ApiUnVote (peer : NodeID_t)
| ApiUpdateVote (percentTime : Z) (proposing : bool)
| ApiGetJson.

Definition api_call (c : ApiCall) (s : DisputedTx) : DisputedTx :=
  match c with
  | ApiGetID => after (getID s)
  | ApiGetOurVote => after (getOurVote s)
  | ApiTx => after (tx s)
  | ApiSetOurVote o => after (setOurVote o s)
  | ApiSetVote peer votesYes => after (setVote peer votesYes s)
  | ApiUnVote peer => after (unVote peer s)
  | ApiUpdateVote percentTime proposing => after (updateVote percentTime proposing s)
  | ApiGetJson => after (getJson s)
  end.

Definition api_calls (cs : list ApiCall) (s : DisputedTx) : DisputedTx :=
  foldl (λ s c, api_call c s) s cs.

(** The peers a sequence of calls registers a vote of. *)
Definition api_voters (cs : list ApiCall) : gset NodeID_t :=
  foldr (λ c X, match c with
                | ApiSetVote peer _ => {[ peer ]} ∪ X
                | _ => X
                end) ∅ cs.

End DisputedTx.

Arguments result {_ _ _ _ _ _ _} r /.
Arguments after {_ _ _ _ _ _ _} r /.
Arguments logged {_ _ _ _ _ _ _} r /.
Arguments getJson : simpl never.
Arguments decidePosition : simpl never.

(** ** A concrete instance

    Peers, transactions and their identifiers are numbers, a peer is printed
    in decimal, and the schedule is
    [{init = 50, mid = 65 @ 50, late = 70 @ 85, stuck = 95 @ 200}]. *)
Module Sample.

Definition av : AvalancheParams :=
  {| AV_INIT_CONSENSUS_PCT := 50;
     AV_MID_CONSENSUS_TIME := 50;
     AV_MID_CONSENSUS_PCT := 65;
     AV_LATE_CONSENSUS_TIME := 85;
     AV_LATE_CONSENSUS_PCT := 70;
     AV_STUCK_CONSENSUS_TIME := 200;
     AV_STUCK_CONSENSUS_PCT := 95 |}.

Definition to_string (peer : N) : string := pretty peer.

Definition Tx : Type := @DisputedTx N N N _ _ unit.

(** A dispute with the given members. *)
Definition dispute (yays nays : Z) (ourVote : bool) (votes : list (N * bool)) : Tx :=
  {| mTransactionID := 7%N; mYays := yays; mNays := nays; mOurVote := ourVote;
     transaction := 7%N; mVotes := list_to_map votes; j_ := tt |}.

(** The object right after its construction. *)
Definition fresh (ourVote : bool) : Tx := construct (λ tx, tx) 7%N ourVote tt.

End Sample.

(** ** Arithmetic of [int] within its range *)
Module CIntFacts.
Import CInt.

Lemma wrap_in_range z : in_range z → wrap z = z.
Proof.
  unfold in_range, INT_MIN, INT_MAX, wrap. intros Hz.
  rewrite Z.mod_small by lia. lia.
Qed.

Lemma wrap_range z : in_range (wrap z).
Proof.
  unfold in_range, INT_MIN, INT_MAX, wrap.
  pose proof (Z.mod_pos_bound (z + 2 ^ 31) (2 ^ 32)). lia.
Qed.

Lemma incr_exact x : incr_ok x → incr x = x + 1.
Proof. unfold incr_ok. intros Hx. apply wrap_in_range. unfold in_range. lia. Qed.

Lemma decr_exact x : decr_ok x → decr x = x - 1.
Proof. unfold decr_ok. intros Hx. apply wrap_in_range. unfold in_range. lia. Qed.

Lemma add_exact a b : in_range (a + b) → add a b = a + b.
Proof. apply wrap_in_range. Qed.

Lemma mul_exact a b : in_range (a * b) → mul a b = a * b.
Proof. apply wrap_in_range. Qed.

Lemma div_exact a b : in_range (a ÷ b) → div a b = a ÷ b.
Proof. apply wrap_in_range. Qed.

(** On the operands of the weight the quotient stays between zero and
    the dividend. *)
Lemma quot_nonneg_bounds a b : 0 <= a → 0 < b → 0 <= a ÷ b <= a.
Proof.
  intros Ha Hb. rewrite Z.quot_div_nonneg by lia. split.
  - apply Z.div_pos; lia.
  - apply Z.div_le_upper_bound; nia.
Qed.

End CIntFacts.

(** ** The decision step *)
Section Decision.

Context {Tx_t TxID_t NodeID_t : Type}.
Context `{!EqDecision NodeID_t, !Countable NodeID_t}.
Context {Journal : Type}.
Variable to_string : NodeID_t → string.
Variable av : AvalancheParams.

Local Abbreviation State := (@DisputedTx Tx_t TxID_t NodeID_t _ _ Journal).
Implicit Types (s : State) (percentTime weight : Z) (proposing : bool).

Lemma set_mOurVote_same s : set_mOurVote (mOurVote s) s = s.
Proof. by destruct s. Qed.

(** [getJson] assigns no member and writes nothing to the journal. *)
Lemma getJson_pure s :
  after (getJson to_string s) = s ∧ logged (getJson to_string s) = [].
Proof.
  unfold getJson, bind, this, ret. cbn.
  by destruct (negb (mVotes_empty s)).
Qed.

(** The comparison of lines 179-186 is the comparison with
    [neededWeight]. *)
Lemma proposingPosition_neededWeight weight percentTime :
  proposingPosition av weight percentTime = (weight >? neededWeight av percentTime).
Proof.
  unfold proposingPosition, neededWeight.
  by repeat case_match.
Qed.

(** Return value and object after lines 165-209, in terms of the local
    [newPosition]. *)
Lemma decidePosition_outcome percentTime proposing s :
  let newPosition := (weigh av percentTime proposing s).2 in
  result (decidePosition to_string av percentTime proposing s)
    = negb (eqb newPosition (mOurVote s)) ∧
  after (decidePosition to_string av percentTime proposing s)
    = set_mOurVote newPosition s.
Proof.
  unfold decidePosition, bind, this, ret, modify, JLOG. cbn.
  destruct (weigh av percentTime proposing s) as [weight newPosition]. cbn.
  destruct (eqb newPosition (mOurVote s)) eqn:Hsame.
  - apply eqb_prop in Hsame. subst newPosition.
    destruct (getJson_pure s) as [Hs _].
    destruct (getJson to_string s) as [[j s1] l1]. cbn in *. subst s1.
    by rewrite set_mOurVote_same.
  - destruct (getJson_pure (set_mOurVote newPosition s)) as [Hs _].
    destruct (getJson to_string (set_mOurVote newPosition s)) as [[j s1] l1].
    cbn in *. by subst s1.
Qed.

(** [updateVote] when neither early return is taken. *)
Lemma updateVote_unguarded percentTime proposing s :
  ¬ guard_fires s →
  updateVote to_string av percentTime proposing s
    = decidePosition to_string av percentTime proposing s.
Proof.
  intros Hg. unfold updateVote, bind, this. cbn.
  destruct (mOurVote s) eqn:Hours; cbn.
  - destruct (Z.eqb_spec (mNays s) 0) as [Hz|Hz].
    + destruct Hg. left. by rewrite Hours.
    + by destruct (decidePosition _ _ _ _ s) as [[??]?].
  - destruct (Z.eqb_spec (mYays s) 0) as [Hz|Hz].
    + destruct Hg. right. by rewrite Hours.
    + by destruct (decidePosition _ _ _ _ s) as [[??]?].
Qed.

(** [updateVote] when an early return is taken. *)
Lemma updateVote_guarded percentTime proposing s :
  guard_fires s →
  updateVote to_string av percentTime proposing s = (false, s, []).
Proof.
  intros [[Hours Hz]|[Hours Hz]]; unfold updateVote, bind, this, ret; cbn;
    rewrite Hours, Hz; reflexivity.
Qed.

Lemma guard_fires_dec s : guard_fires s ∨ ¬ guard_fires s.
Proof.
  unfold guard_fires.
  destruct (mOurVote s), (Z.eq_dec (mNays s) 0), (Z.eq_dec (mYays s) 0);
    intuition congruence.
Qed.

(** The weight of the proposing branch, when nothing overflows. *)
Lemma proposingWeight_exact s :
  weight_no_overflow s →
  proposingWeight s
    = (mYays s * 100 + (if mOurVote s then 100 else 0)) ÷ (mNays s + mYays s + 1).
Proof.
  intros (Hy & Hn & H100 & Hsum). unfold proposingWeight.
  unfold CInt.INT_MAX in *.
  assert (Hr : ∀ z, 0 <= z <= 2 ^ 31 - 1 → CInt.in_range z).
  { unfold CInt.in_range, CInt.INT_MIN, CInt.INT_MAX. lia. }
  rewrite (CIntFacts.mul_exact (mYays s) 100) by (apply Hr; lia).
  rewrite (CIntFacts.add_exact (mNays s) (mYays s)) by (apply Hr; lia).
  rewrite (CIntFacts.add_exact (mNays s + mYays s) 1) by (apply Hr; lia).
  rewrite CIntFacts.add_exact by (apply Hr; destruct (mOurVote s); lia).
  apply CIntFacts.div_exact, Hr.
  pose proof (CIntFacts.quot_nonneg_bounds
    (mYays s * 100 + (if mOurVote s then 100 else 0)) (mNays s + mYays s + 1)).
  destruct (mOurVote s); lia.
Qed.

(** *** Properties of [updateVote] *)

(** The divisor of line 171 is not zero on non-negative counters, even
    where the sum overflows. *)
Lemma proposingWeight_divisor s :
  0 <= mYays s <= CInt.INT_MAX → 0 <= mNays s <= CInt.INT_MAX →
  CInt.add (CInt.add (mNays s) (mYays s)) 1 ≠ 0.
Proof.
  unfold CInt.add, CInt.wrap, CInt.INT_MAX. intros Hy Hn.
  generalize (mNays s) (mYays s) Hy Hn. clear. intros n y Hy Hn.
  Z.div_mod_to_equations. lia.
Qed.

(** [C4] Early exit.  When our vote is yes and no peer votes no, or our
    vote is no and no peer votes yes, [updateVote] returns [false] and
    leaves our vote (indeed the whole object) as it was, whatever
    [percentTime] and [proposing] are. *)
Theorem updateVote_early_exit percentTime proposing s :
  (mOurVote s = true ∧ mNays s = 0) ∨ (mOurVote s = false ∧ mYays s = 0) →
  result (updateVote to_string av percentTime proposing s) = false ∧
  mOurVote (after (updateVote to_string av percentTime proposing s)) = mOurVote s ∧
  after (updateVote to_string av percentTime proposing s) = s.
Proof.
  intros Hg. by rewrite (updateVote_guarded percentTime proposing s Hg).
Qed.

(** [C9] Frame.  [updateVote] assigns no member other than [mOurVote]:
    the votes, both counters, the transaction, its identifier (and the
    journal) are as before; and it returns [true] exactly when
    [mOurVote] after the call differs from [mOurVote] before it. *)
Theorem updateVote_frame percentTime proposing s :
  let r := updateVote to_string av percentTime proposing s in
  mVotes (after r) = mVotes s ∧
  mYays (after r) = mYays s ∧
  mNays (after r) = mNays s ∧
  mTransactionID (after r) = mTransactionID s ∧
  transaction (after r) = transaction s ∧
  j_ (after r) = j_ s ∧
  (result r = true ↔ mOurVote (after r) ≠ mOurVote s).
Proof.
  intros r. subst r.
  destruct (guard_fires_dec s) as [Hg|Hg].
  - rewrite (updateVote_guarded percentTime proposing s Hg). cbn.
    repeat split; try done.
  - rewrite (updateVote_unguarded percentTime proposing s Hg).
    destruct (decidePosition_outcome percentTime proposing s) as [Hr Ha].
    rewrite Hr, Ha. cbn. repeat split; try done.
    + intros Hne Heq. rewrite Heq, eqb_reflx in Hne. done.
    + intros Hne. destruct (eqb _ _) eqn:Hb; [|done].
      apply eqb_prop in Hb. done.
Qed.

(** [C5] Not proposing.  The position computed by a call with
    [proposing = false] is [mYays > mNays] (the weight is the
    placeholder -1), so it is [false] on a tie; [updateVote] returns
    [true] only if that position differs from our vote, and, past the
    early returns, exactly then, our vote becoming that position.  With
    two yes, two no and our vote yes it returns [true] and our vote
    becomes no. *)
Theorem updateVote_not_proposing percentTime s :
  let r := updateVote to_string av percentTime false s in
  weigh av percentTime false s = (-1, mYays s >? mNays s) ∧
  (mYays s = mNays s → (weigh av percentTime false s).2 = false) ∧
  (result r = true → (mYays s >? mNays s) ≠ mOurVote s) ∧
  (¬ guard_fires s →
     result r = negb (eqb (mYays s >? mNays s) (mOurVote s)) ∧
     mOurVote (after r) = (mYays s >? mNays s)) ∧
  (mYays s = 2 → mNays s = 2 → mOurVote s = true →
     result r = true ∧ mOurVote (after r) = false).
Proof.
  intros r. subst r.
  assert (Hun : ¬ guard_fires s →
     result (updateVote to_string av percentTime false s)
       = negb (eqb (mYays s >? mNays s) (mOurVote s)) ∧
     mOurVote (after (updateVote to_string av percentTime false s))
       = (mYays s >? mNays s)).
  { intros Hg. rewrite (updateVote_unguarded percentTime false s Hg).
    destruct (decidePosition_outcome percentTime false s) as [Hr Ha].
    rewrite Hr, Ha. done. }
  split; [done|]. split.
  { intros Htie. cbn. rewrite Htie, Z.gtb_ltb. apply Z.ltb_irrefl. }
  split.
  { destruct (guard_fires_dec s) as [Hg|Hg].
    - rewrite (updateVote_guarded percentTime false s Hg). done.
    - destruct (Hun Hg) as [Hr _]. rewrite Hr. intros Hne Heq.
      rewrite Heq, eqb_reflx in Hne. done. }
  split; [done|].
  intros Hy Hn Ho. destruct Hun as [Hr Ha].
  { unfold guard_fires. rewrite Hy, Hn, Ho. intros [[_ ?]|[? _]]; done. }
  rewrite Hr, Ha, Hy, Hn, Ho. done.
Qed.

(** What a call that keeps our vote writes to the journal: the weight
    and the time, then the snapshot. *)
Lemma decidePosition_logged_same percentTime proposing s :
  (weigh av percentTime proposing s).2 = mOurVote s →
  logged (decidePosition to_string av percentTime proposing s)
    = [(kInfo, NoChange (mOurVote s) (weigh av percentTime proposing s).1 percentTime);
       (kDebug, JsonDump (result (getJson to_string s)))].
Proof.
  unfold decidePosition, bind, this, ret, modify, JLOG. cbn.
  destruct (weigh av percentTime proposing s) as [weight newPosition]. cbn.
  intros ->. rewrite eqb_reflx.
  destruct (getJson_pure s) as [_ Hl].
  destruct (getJson to_string s) as [[j s1] l1]. cbn in *. by subst l1.
Qed.

(** [C1] Proposing.  Past the early returns (our vote is yes and some
    peer votes no, or our vote is no and some peer votes yes) and with
    counters for which line 171 does not overflow, a call with
    [proposing = true] computes
    [weight = (mYays * 100 + (mOurVote ? 100 : 0)) / (mNays + mYays + 1)],
    the division truncating (here also flooring, the operands being
    non-negative); it compares the weight with the threshold of the
    bracket of [percentTime], the brackets being delimited by strict
    comparisons so that a boundary belongs to the later bracket; our vote
    becomes [weight > threshold] and the call returns whether that
    changed it; a call that keeps our vote logs this weight.  With
    three yes, one no, our vote no, at time 30 under
    [{init = 50, mid @ 50, late @ 85, stuck @ 200}] the weight is 60,
    the call returns [true] and our vote becomes yes. *)
Theorem updateVote_proposing percentTime s :
  (mOurVote s = true ∧ mNays s ≠ 0) ∨ (mOurVote s = false ∧ mYays s ≠ 0) →
  weight_no_overflow s →
  let r := updateVote to_string av percentTime true s in
  let weight :=
    (mYays s * 100 + (if mOurVote s then 100 else 0)) ÷ (mNays s + mYays s + 1) in
  let threshold := neededWeight av percentTime in
  weight = (mYays s * 100 + (if mOurVote s then 100 else 0)) `div` (mNays s + mYays s + 1) ∧
  weigh av percentTime true s = (weight, weight >? threshold) ∧
  ((percentTime < AV_MID_CONSENSUS_TIME av → threshold = AV_INIT_CONSENSUS_PCT av) ∧
   (AV_MID_CONSENSUS_TIME av <= percentTime < AV_LATE_CONSENSUS_TIME av →
      threshold = AV_MID_CONSENSUS_PCT av) ∧
   (AV_MID_CONSENSUS_TIME av <= percentTime →
    AV_LATE_CONSENSUS_TIME av <= percentTime < AV_STUCK_CONSENSUS_TIME av →
      threshold = AV_LATE_CONSENSUS_PCT av) ∧
   (AV_MID_CONSENSUS_TIME av <= percentTime →
    AV_LATE_CONSENSUS_TIME av <= percentTime →
    AV_STUCK_CONSENSUS_TIME av <= percentTime →
      threshold = AV_STUCK_CONSENSUS_PCT av)) ∧
  result r = negb (eqb (weight >? threshold) (mOurVote s)) ∧
  after r = set_mOurVote (weight >? threshold) s ∧
  ((weight >? threshold) = mOurVote s →
     head (logged r) = Some (kInfo, NoChange (mOurVote s) weight percentTime)) ∧
  (mYays s = 3 → mNays s = 1 → mOurVote s = false → percentTime = 30 →
   AV_INIT_CONSENSUS_PCT av = 50 → AV_MID_CONSENSUS_TIME av = 50 →
   AV_LATE_CONSENSUS_TIME av = 85 → AV_STUCK_CONSENSUS_TIME av = 200 →
     weight = 60 ∧ (weight >? threshold) = true ∧
     result r = true ∧ mOurVote (after r) = true).
Proof.
  intros Hg Hrange r weight threshold.
  assert (Hng : ¬ guard_fires s).
  { unfold guard_fires. destruct Hg as [[Ho Hz]|[Ho Hz]]; rewrite Ho;
      intros [[? ?]|[? ?]]; done. }
  assert (Hw : weigh av percentTime true s = (weight, weight >? threshold)).
  { cbn. rewrite proposingPosition_neededWeight.
    by rewrite (proposingWeight_exact s Hrange). }
  assert (Hr : result r = negb (eqb (weight >? threshold) (mOurVote s)) ∧
               after r = set_mOurVote (weight >? threshold) s).
  { subst r. rewrite (updateVote_unguarded percentTime true s Hng).
    pose proof (decidePosition_outcome percentTime true s) as Hd.
    rewrite Hw in Hd. exact Hd. }
  destruct Hr as [Hres Haft].
  split.
  { destruct Hrange as (Hy & Hn & _ & _). subst weight.
    apply Z.quot_div_nonneg; destruct (mOurVote s); lia. }
  split; [exact Hw|]. split.
  { subst threshold. unfold neededWeight. repeat split; intros; repeat case_match; lia. }
  split; [exact Hres|]. split; [exact Haft|]. split.
  { intros Hsame. subst r. rewrite (updateVote_unguarded percentTime true s Hng).
    rewrite decidePosition_logged_same; rewrite Hw; done. }
  intros Hy Hn Ho Ht Hinit Hmid _ _.
  assert (H60 : weight = 60) by (subst weight; rewrite Hy, Hn, Ho; reflexivity).
  assert (Hth : threshold = 50).
  { subst threshold. unfold neededWeight. rewrite Ht, Hmid, Hinit. reflexivity. }
  rewrite Hres, Haft, H60, Hth, Ho. done.
Qed.

(** [C6] Threshold monotonicity.  When the four percentages of the
    schedule are ordered, the threshold that a proposing call compares
    the weight with does not decrease with [percentTime]: for
    [t1 <= t2] the threshold at [t1] is at most the threshold at [t2],
    where the threshold at [t] is the number the position is decided
    against for every object; so a yes at the later time is a yes at
    the earlier one. *)
Theorem neededWeight_monotone t1 t2 :
  AV_INIT_CONSENSUS_PCT av <= AV_MID_CONSENSUS_PCT av →
  AV_MID_CONSENSUS_PCT av <= AV_LATE_CONSENSUS_PCT av →
  AV_LATE_CONSENSUS_PCT av <= AV_STUCK_CONSENSUS_PCT av →
  t1 <= t2 →
  neededWeight av t1 <= neededWeight av t2 ∧
  (∀ s t, (weigh av t true s).2 = ((weigh av t true s).1 >? neededWeight av t)) ∧
  (∀ s, (weigh av t2 true s).2 = true → (weigh av t1 true s).2 = true).
Proof.
  intros Him Hml Hls Ht.
  assert (Hmono : neededWeight av t1 <= neededWeight av t2).
  { unfold neededWeight. repeat case_match; lia. }
  split; [exact Hmono|]. split.
  - intros s t. cbn. apply proposingPosition_neededWeight.
  - intros s. cbn. rewrite !proposingPosition_neededWeight. lia.
Qed.

(** [C3] (as amended) On non-negative counters the early returns are a
    shortcut: in a proposing call if the weight is computed without
    overflow and the threshold of the bracket lies in [0, 100), in a
    non-proposing call unless our vote is yes while no peer votes
    yes. *)
Theorem early_exit_shortcut percentTime proposing s :
  0 <= mYays s → 0 <= mNays s →
  (proposing = true →
     weight_no_overflow s ∧ 0 <= neededWeight av percentTime < 100) →
  (proposing = false → mOurVote s = true → mYays s ≠ 0) →
  early_exit_is_shortcut to_string av percentTime proposing s.
Proof.
  intros Hy Hn Hth Hnp Hg.
  rewrite (updateVote_guarded percentTime proposing s Hg).
  destruct (decidePosition_outcome percentTime proposing s) as [Hr Ha].
  rewrite Hr, Ha. cbn -[weigh].
  assert (Hsame : (weigh av percentTime proposing s).2 = mOurVote s).
  { destruct proposing.
    - cbn. rewrite proposingPosition_neededWeight.
      destruct (Hth eq_refl) as [Hrange Hth'].
      rewrite (proposingWeight_exact s Hrange).
      clear Hth. rename Hth' into Hth.
      destruct Hg as [[Ho Hz]|[Ho Hz]]; rewrite Ho, Hz.
      + replace (mYays s * 100 + 100) with (100 * (0 + mYays s + 1)) by lia.
        rewrite Z.quot_mul by lia. lia.
      + cbn. rewrite Z.quot_0_l by lia. lia.
    - cbn. destruct Hg as [[Ho Hz]|[Ho Hz]]; rewrite Ho, Hz.
      + specialize (Hnp eq_refl Ho). lia.
      + lia. }
  rewrite Hsame, eqb_reflx, set_mOurVote_same. done.
Qed.

End Decision.

(** ** The vote tally *)
Section Tally.

Context {Tx_t TxID_t NodeID_t : Type}.
Context `{!EqDecision NodeID_t, !Countable NodeID_t}.
Context {Journal : Type}.

Local Abbreviation State := (@DisputedTx Tx_t TxID_t NodeID_t _ _ Journal).
Implicit Types (s : State) (peer : NodeID_t) (v votesYes : bool)
  (m : gmap NodeID_t bool) (c : @TallyCall NodeID_t)
  (cs : list (@TallyCall NodeID_t)).

(** *** The three paths of [setVote] and the two of [unVote] *)

Lemma setVote_new peer votesYes s :
  mVotes s !! peer = None →
  after (setVote peer votesYes s)
    = (if votesYes then set_mYays (CInt.incr (mYays s))
       else set_mNays (CInt.incr (mNays s)))
        (set_mVotes (<[peer := votesYes]> (mVotes s)) s).
Proof.
  intros Hnew. unfold setVote, mVotes_insert, bind, this, modify, JLOG.
  rewrite Hnew. by destruct votesYes.
Qed.

Lemma setVote_same peer votesYes s :
  mVotes s !! peer = Some votesYes → setVote peer votesYes s = (tt, s, []).
Proof.
  intros Hold. unfold setVote, mVotes_insert, bind, this, ret.
  rewrite Hold. by destruct votesYes.
Qed.

Lemma setVote_flip peer votesYes s :
  mVotes s !! peer = Some (negb votesYes) →
  after (setVote peer votesYes s)
    = set_mVotes (<[peer := votesYes]> (mVotes s))
        (if votesYes
         then set_mYays (CInt.incr (mYays s)) (set_mNays (CInt.decr (mNays s)) s)
         else set_mYays (CInt.decr (mYays s)) (set_mNays (CInt.incr (mNays s)) s)).
Proof.
  intros Hold.
  unfold setVote, mVotes_insert, mVotes_assign, bind, this, modify, JLOG.
  rewrite Hold. by destruct votesYes.
Qed.

Lemma unVote_present peer v s :
  mVotes s !! peer = Some v →
  after (unVote peer s)
    = set_mVotes (delete peer (mVotes s))
        (if v then set_mYays (CInt.decr (mYays s)) s
         else set_mNays (CInt.decr (mNays s)) s).
Proof.
  intros Hold. unfold unVote, mVotes_find, mVotes_erase, bind, this, ret, modify.
  cbn. rewrite Hold. by destruct v.
Qed.

Lemma unVote_absent peer s :
  mVotes s !! peer = None → unVote peer s = (tt, s, []).
Proof.
  intros Hnone. unfold unVote, mVotes_find, bind, this, ret.
  cbn. by rewrite Hnone.
Qed.

(** *** Counting the votes of a map *)

Lemma votes_for_lookup v m peer :
  votes_for v m !! peer = Some v ↔ m !! peer = Some v.
Proof.
  unfold votes_for. rewrite map_lookup_filter_Some. cbn. tauto.
Qed.

Lemma votes_for_lookup_other v m peer :
  m !! peer ≠ Some v → votes_for v m !! peer = None.
Proof.
  intros Hne. unfold votes_for. apply map_lookup_filter_None.
  right. intros x Hx ?. cbn in *. congruence.
Qed.

Lemma size_votes_for_insert_eq v m peer :
  m !! peer ≠ Some v →
  size (votes_for v (<[peer := v]> m)) = S (size (votes_for v m)).
Proof.
  intros Hne. unfold votes_for.
  rewrite map_filter_insert_True by done.
  apply map_size_insert_None. by apply votes_for_lookup_other.
Qed.

Lemma size_votes_for_insert_ne v m peer :
  m !! peer ≠ Some (negb v) →
  size (votes_for (negb v) (<[peer := v]> m)) = size (votes_for (negb v) m).
Proof.
  intros Hne. unfold votes_for.
  rewrite map_filter_insert_False by (cbn; by destruct v).
  rewrite map_filter_delete, delete_id; [done|].
  by apply votes_for_lookup_other.
Qed.

Lemma size_votes_for_insert_flip v m peer :
  m !! peer = Some (negb v) →
  S (size (votes_for (negb v) (<[peer := v]> m))) = size (votes_for (negb v) m).
Proof.
  intros Hold. unfold votes_for.
  rewrite map_filter_insert_False by (cbn; by destruct v).
  rewrite map_filter_delete.
  assert (Hin : filter (λ kv, kv.2 = negb v) m !! peer = Some (negb v))
    by by apply votes_for_lookup.
  rewrite map_size_delete, Hin.
  assert (size (filter (λ kv, kv.2 = negb v) m) ≠ 0%nat); [|lia].
  apply map_size_ne_0_lookup. eauto.
Qed.

Lemma size_votes_for_delete_eq v m peer :
  m !! peer = Some v →
  S (size (votes_for v (delete peer m))) = size (votes_for v m).
Proof.
  intros Hold. unfold votes_for. rewrite map_filter_delete.
  assert (Hin : filter (λ kv, kv.2 = v) m !! peer = Some v)
    by by apply votes_for_lookup.
  rewrite map_size_delete, Hin.
  assert (size (filter (λ kv, kv.2 = v) m) ≠ 0%nat); [|lia].
  apply map_size_ne_0_lookup. eauto.
Qed.

Lemma size_votes_for_delete_ne v m peer :
  m !! peer ≠ Some (negb v) →
  size (votes_for (negb v) (delete peer m)) = size (votes_for (negb v) m).
Proof.
  intros Hne. unfold votes_for. rewrite map_filter_delete, delete_id; [done|].
  by apply votes_for_lookup_other.
Qed.

(** Every entry is a yes or a no. *)
Lemma size_votes_for_total m :
  (size (votes_for true m) + size (votes_for false m))%nat = size m.
Proof.
  induction m as [|peer v m Hnew IH] using map_ind.
  - unfold votes_for. by rewrite !map_filter_empty, map_size_empty.
  - rewrite (map_size_insert_None _ _ _ Hnew).
    destruct v.
    + rewrite (size_votes_for_insert_eq true) by congruence.
      rewrite (size_votes_for_insert_ne true) by (cbn; congruence).
      cbn [negb]. lia.
    + rewrite (size_votes_for_insert_eq false) by congruence.
      rewrite (size_votes_for_insert_ne false) by (cbn; congruence).
      cbn [negb]. lia.
Qed.

Lemma size_votes_for_le v m : (size (votes_for v m) ≤ size m)%nat.
Proof. pose proof (size_votes_for_total m). destruct v; lia. Qed.

(** *** Properties of [setVote] and [unVote] *)

(** [C7] [setVote].  A peer without an entry is entered with the vote
    and the counter of that vote grows by one, the other counter being
    kept.  A peer whose entry holds the same vote leaves the object as it
    is.  A peer whose entry holds the opposite vote has it replaced, the
    counter of the new vote grows by one, the other shrinks by one, and
    the sum of the counters and the size of the map are kept.  The
    counters are [int]s: a step by one is exact where it does not
    overflow.  No other member is ever assigned. *)
Theorem setVote_cases peer votesYes s :
  let s' := after (setVote peer votesYes s) in
  tally_frame s s' ∧
  (mVotes s !! peer = None →
   CInt.incr_ok (counter votesYes s) →
     mVotes s' = <[peer := votesYes]> (mVotes s) ∧
     mVotes s' !! peer = Some votesYes ∧
     size (mVotes s') = S (size (mVotes s)) ∧
     counter votesYes s' = counter votesYes s + 1 ∧
     counter (negb votesYes) s' = counter (negb votesYes) s) ∧
  (mVotes s !! peer = Some votesYes →
     s' = s ∧ setVote peer votesYes s = (tt, s, [])) ∧
  (mVotes s !! peer = Some (negb votesYes) →
   CInt.incr_ok (counter votesYes s) →
   CInt.decr_ok (counter (negb votesYes) s) →
     mVotes s' = <[peer := votesYes]> (mVotes s) ∧
     mVotes s' !! peer = Some votesYes ∧
     counter votesYes s' = counter votesYes s + 1 ∧
     counter (negb votesYes) s' = counter (negb votesYes) s - 1 ∧
     mYays s' + mNays s' = mYays s + mNays s ∧
     size (mVotes s') = size (mVotes s)).
Proof.
  intros s'. subst s'. split.
  { destruct (mVotes s !! peer) as [stored|] eqn:Hold.
    - destruct (decide (stored = votesYes)) as [->|Hne].
      + by rewrite (setVote_same peer votesYes s Hold).
      + assert (stored = negb votesYes) as -> by (by destruct stored, votesYes).
        rewrite (setVote_flip peer votesYes s Hold). by destruct votesYes.
    - rewrite (setVote_new peer votesYes s Hold). by destruct votesYes. }
  split; [|split].
  - intros Hnew Hup. rewrite (setVote_new peer votesYes s Hnew).
    destruct votesYes; cbn in *;
      rewrite (CIntFacts.incr_exact _ Hup), lookup_insert_eq,
        (map_size_insert_None _ _ _ Hnew); done.
  - intros Hold. by rewrite (setVote_same peer votesYes s Hold).
  - intros Hold Hup Hdown. rewrite (setVote_flip peer votesYes s Hold).
    destruct votesYes; cbn in *;
      rewrite (CIntFacts.incr_exact _ Hup), (CIntFacts.decr_exact _ Hdown),
        lookup_insert_eq, map_size_insert_Some by (by rewrite Hold);
      repeat split; lia.
Qed.

(** [C8] [unVote].  The entry of a peer that has one is erased and the
    counter of the vote it held shrinks by one (where that does not
    overflow), nothing else being assigned; for a peer without an entry
    the call returns with the object as it was and nothing logged:
    there is no failure path. *)
Theorem unVote_cases peer s :
  let s' := after (unVote peer s) in
  (∀ v, mVotes s !! peer = Some v →
     CInt.decr_ok (counter v s) →
     mVotes s' = delete peer (mVotes s) ∧
     mVotes s' !! peer = None ∧
     counter v s' = counter v s - 1 ∧
     counter (negb v) s' = counter (negb v) s ∧
     tally_frame s s') ∧
  (mVotes s !! peer = None → unVote peer s = (tt, s, []) ∧ s' = s).
Proof.
  intros s'. subst s'. split.
  - intros v Hold Hrange. rewrite (unVote_present peer v s Hold).
    destruct v; cbn in *;
      rewrite lookup_delete_eq, (CIntFacts.decr_exact _ Hrange); done.
  - intros Hnone. by rewrite (unVote_absent peer s Hnone).
Qed.

(** *** The invariant of the tally *)

Lemma size_le_of_dom m (P : gset NodeID_t) :
  dom m ⊆ P → (size m ≤ size P)%nat.
Proof. intros Hsub. rewrite <- size_dom. by apply subseteq_size. Qed.

(** A call keeps the counters in agreement with the map, as long as the
    peers fit into an [int]. *)
Lemma call_consistent (P : gset NodeID_t) c s :
  Z.of_nat (size P) <= CInt.INT_MAX →
  tally_consistent s → dom (mVotes s) ⊆ P → voters [c] ⊆ P →
  tally_consistent (after (call c s)) ∧ dom (mVotes (after (call c s))) ⊆ P.
Proof.
  intros Hmax [Hy Hn] Hdom Hvoters.
  pose proof (size_le_of_dom _ _ Hdom) as Hsize.
  pose proof (size_votes_for_total (mVotes s)) as Htotal.
  assert (Hmin : CInt.INT_MIN < 0) by done.
  destruct c as [peer votesYes|peer]; cbn [call].
  - destruct (mVotes s !! peer) as [stored|] eqn:Hold.
    + assert (Hin : dom (<[peer := votesYes]> (mVotes s)) ⊆ P).
      { rewrite dom_insert_L. apply elem_of_dom_2 in Hold. set_solver. }
      destruct (decide (stored = votesYes)) as [->|Hne].
      { by rewrite (setVote_same peer votesYes s Hold). }
      assert (stored = negb votesYes) as -> by (by destruct stored, votesYes).
      rewrite (setVote_flip peer votesYes s Hold).
      pose proof (size_votes_for_insert_eq votesYes (mVotes s) peer) as Hup.
      pose proof (size_votes_for_insert_flip votesYes (mVotes s) peer Hold) as Hdown.
      pose proof (size_votes_for_total (<[peer := votesYes]> (mVotes s))) as Htotal'.
      pose proof (size_le_of_dom _ _ Hin) as Hsize'.
      rewrite Hold in Hup.
      specialize (Hup ltac:(by destruct votesYes)).
      destruct votesYes; cbn [negb] in *; (split; [|exact Hin]); split; cbn;
        rewrite ?CIntFacts.incr_exact, ?CIntFacts.decr_exact
          by (unfold CInt.incr_ok, CInt.decr_ok; lia);
        lia.
    + assert (Hin : dom (<[peer := votesYes]> (mVotes s)) ⊆ P).
      { rewrite dom_insert_L. cbn in Hvoters. set_solver. }
      rewrite (setVote_new peer votesYes s Hold).
      pose proof (size_votes_for_insert_eq votesYes (mVotes s) peer) as Hup.
      pose proof (size_votes_for_insert_ne votesYes (mVotes s) peer) as Hkeep.
      pose proof (size_votes_for_total (<[peer := votesYes]> (mVotes s))) as Htotal'.
      pose proof (size_le_of_dom _ _ Hin) as Hsize'.
      rewrite Hold in Hup, Hkeep.
      specialize (Hup ltac:(done)). specialize (Hkeep ltac:(done)).
      destruct votesYes; cbn [negb] in *; (split; [|exact Hin]); split; cbn;
        rewrite ?CIntFacts.incr_exact by (unfold CInt.incr_ok; lia); lia.
  - destruct (mVotes s !! peer) as [stored|] eqn:Hold.
    + assert (Hin : dom (delete peer (mVotes s)) ⊆ P).
      { rewrite dom_delete_L. set_solver. }
      rewrite (unVote_present peer stored s Hold).
      pose proof (size_votes_for_delete_eq stored (mVotes s) peer Hold) as Hdown.
      pose proof (size_votes_for_delete_ne stored (mVotes s) peer) as Hkeep.
      rewrite Hold in Hkeep.
      specialize (Hkeep ltac:(by destruct stored)).
      destruct stored; cbn [negb] in *; (split; [|exact Hin]); split; cbn;
        rewrite ?CIntFacts.decr_exact by (unfold CInt.decr_ok; lia); lia.
    + by rewrite (unVote_absent peer s Hold).
Qed.

Lemma calls_consistent (P : gset NodeID_t) cs s :
  Z.of_nat (size P) <= CInt.INT_MAX →
  tally_consistent s → dom (mVotes s) ⊆ P → voters cs ⊆ P →
  tally_consistent (calls cs s).
Proof.
  intros Hmax. revert s.
  induction cs as [|c cs IH]; intros s Hs Hdom Hvoters; [done|].
  destruct (call_consistent P c s Hmax Hs Hdom) as [Hs' Hdom'].
  { destruct c; cbn in *; set_solver. }
  apply (IH _ Hs' Hdom'). destruct c; cbn in *; set_solver.
Qed.

(** [C2] The invariant.  After any sequence of [setVote] and [unVote]
    calls on a freshly constructed object (the peers it names being at
    most [INT_MAX]), the counters add up to the size of the map, neither
    is negative, each is the number of entries with its vote, and no
    peer has two entries. *)
Theorem tally_invariant (Tx_getID : Tx_t → TxID_t) tx ourVote (j : Journal) cs :
  Z.of_nat (size (voters cs)) <= CInt.INT_MAX →
  let s := calls cs (construct Tx_getID tx ourVote j) in
  mYays s + mNays s = Z.of_nat (size (mVotes s)) ∧
  0 <= mYays s ∧
  0 <= mNays s ∧
  NoDup (map_to_list (mVotes s)).*1 ∧
  tally_consistent s.
Proof.
  intros Hmax s.
  assert (Hs : tally_consistent s).
  { apply (calls_consistent (voters cs)); [done| |set_solver|done].
    split; cbn; unfold votes_for; by rewrite map_filter_empty, map_size_empty. }
  pose proof (size_votes_for_total (mVotes s)) as Htotal.
  destruct Hs as [Hy Hn].
  split; [lia|]. split; [lia|]. split; [lia|]. split; [|done].
  apply NoDup_fst_map_to_list.
Qed.

(** Counters that agree with a map of at most 21474835 votes are in the
    range where line 171 is exact. *)
Lemma weight_no_overflow_of_tally s :
  tally_consistent s → Z.of_nat (size (mVotes s)) <= 21474835 →
  weight_no_overflow s.
Proof.
  intros [Hy Hn] Hsize.
  pose proof (size_votes_for_total (mVotes s)) as Htotal.
  unfold weight_no_overflow, CInt.INT_MAX. lia.
Qed.

End Tally.

(** ** The snapshot *)
Section Snapshot.

Context {Tx_t TxID_t NodeID_t : Type}.
Context `{!EqDecision NodeID_t, !Countable NodeID_t}.
Context {Journal : Type}.
Variable to_string : NodeID_t → string.

Local Abbreviation State := (@DisputedTx Tx_t TxID_t NodeID_t _ _ Journal).
Implicit Types (s : State) (m : gmap NodeID_t bool).

Lemma mVotes_empty_spec s : mVotes_empty s = true ↔ mVotes s = ∅.
Proof. unfold mVotes_empty. apply bool_decide_eq_true. Qed.

(** The loop of lines 224-225 builds the votes keyed by the printed
    peer, when no two peers are printed alike. *)
Lemma votesj_kmap m :
  Inj (=) (=) to_string →
  map_fold (λ first second votesj, json_set (to_string first) (JBool second) votesj)
           objectValue m
    = JObject (kmap to_string (JBool <$> m)).
Proof.
  intros Hinj.
  apply (map_fold_weak_ind (λ r m, r = JObject (kmap to_string (JBool <$> m)))).
  - unfold objectValue. by rewrite fmap_empty, kmap_empty.
  - intros peer vote m' r Hnew ->. cbn.
    by rewrite fmap_insert, (kmap_insert to_string).
Qed.

Lemma size_kmap_to_string (votes : gmap NodeID_t JsonValue) :
  Inj (=) (=) to_string →
  size (kmap (M2 := gmap string) to_string votes) = size votes.
Proof.
  intros Hinj. rewrite <- !length_map_to_list.
  by rewrite (map_to_list_kmap to_string), length_fmap.
Qed.

(** The order in which a [hash_map] is iterated is unspecified.  It does
    not matter here: the loop run over the entries in any order builds
    the same object. *)
Lemma votesj_of_list (l : list (NodeID_t * bool)) :
  foldr (λ vote votesj, json_set (to_string vote.1) (JBool vote.2) votesj) objectValue l
    = JObject (list_to_map (prod_map to_string JBool <$> l)).
Proof.
  induction l as [|[first second] l IH]; [done|].
  cbn. by rewrite IH.
Qed.

Lemma votesj_any_order m (l : list (NodeID_t * bool)) :
  Inj (=) (=) to_string → l ≡ₚ map_to_list m →
  foldr (λ vote votesj, json_set (to_string vote.1) (JBool vote.2) votesj) objectValue l
    = map_fold (λ first second votesj, json_set (to_string first) (JBool second) votesj)
               objectValue m.
Proof.
  intros Hinj Hperm. rewrite votesj_of_list, (votesj_kmap m Hinj). f_equal.
  unfold kmap. apply list_to_map_proper.
  - rewrite <- list_fmap_compose.
    assert (Heq : (fst ∘ prod_map to_string JBool) <$> l = to_string <$> l.*1).
    { rewrite <- list_fmap_compose. by apply list_fmap_ext. }
    rewrite Heq. apply (NoDup_fmap_2 _). rewrite Hperm. apply NoDup_fst_map_to_list.
  - rewrite map_to_list_fmap, <- list_fmap_compose, Hperm.
    assert (Hext : prod_map to_string JBool <$> map_to_list m
              = (prod_map to_string id ∘ prod_map id JBool) <$> map_to_list m)
      by (apply list_fmap_ext; by intros ? [??]).
    by rewrite Hext.
Qed.

(** [C10] [getJson], for a [to_string] that prints no two peers alike.
    The value returned is an object with [yays = mYays],
    [nays = mNays], [our_vote = mOurVote] and no member besides these
    and [votes]; [votes] is a member exactly when [mVotes] is not empty,
    and then it is an object that maps the printed form of every peer
    to the vote stored for it and has no other member, hence one member
    per peer; the call assigns no member of the object and logs
    nothing. *)
Theorem getJson_snapshot s :
  Inj (=) (=) to_string →
  let r := getJson to_string s in
  after r = s ∧ logged r = [] ∧
  ∃ members, result r = JObject members ∧
    members !! "yays" = Some (JInt (mYays s)) ∧
    members !! "nays" = Some (JInt (mNays s)) ∧
    members !! "our_vote" = Some (JBool (mOurVote s)) ∧
    (∀ key, is_Some (members !! key) →
       key ∈ ["yays"; "nays"; "our_vote"; "votes"]) ∧
    (is_Some (members !! "votes") ↔ mVotes s ≠ ∅) ∧
    (mVotes s ≠ ∅ →
       ∃ votes, members !! "votes" = Some (JObject votes) ∧
         (∀ peer, votes !! to_string peer = JBool <$> mVotes s !! peer) ∧
         (∀ key, is_Some (votes !! key) →
            ∃ peer, key = to_string peer ∧ is_Some (mVotes s !! peer)) ∧
         size votes = size (mVotes s)).
Proof.
  intros Hinj r. subst r.
  unfold getJson, bind, this, ret. cbn.
  assert (Hkeys : ∀ (key : string) (v : JsonValue) (base : gmap string JsonValue),
    (∀ k, is_Some (base !! k) → k ∈ ["yays"; "nays"; "our_vote"; "votes"]) →
    key ∈ ["yays"; "nays"; "our_vote"; "votes"] →
    ∀ k, is_Some (<[key := v]> base !! k) →
         k ∈ ["yays"; "nays"; "our_vote"; "votes"]).
  { intros key v base Hbase Hkey k. rewrite lookup_insert_is_Some.
    intros [<-|[_ Hk]]; auto. }
  assert (H3 : ∀ k, is_Some
      ((<["our_vote" := JBool (mOurVote s)]>
        (<["nays" := JInt (mNays s)]>
          (<["yays" := JInt (mYays s)]> (∅ : gmap string JsonValue)))) !! k) →
      k ∈ ["yays"; "nays"; "our_vote"; "votes"]).
  { repeat (apply Hkeys; [|set_solver]).
    intros k. rewrite lookup_empty. by intros [? ?]. }
  destruct (mVotes_empty s) eqn:Hempty; cbn.
  - apply mVotes_empty_spec in Hempty.
    split; [done|]. split; [done|]. eexists. split; [done|].
    split; [done|]. split; [done|]. split; [done|]. split; [exact H3|].
    split; [|done].
    split; [|done]. intros [? Hl]. done.
  - assert (Hne : mVotes s ≠ ∅).
    { intros He. apply mVotes_empty_spec in He. congruence. }
    rewrite (votesj_kmap (mVotes s) Hinj).
    split; [done|]. split; [done|]. eexists. split; [done|].
    split; [done|]. split; [done|]. split; [done|]. split.
    { apply Hkeys; [exact H3|set_solver]. }
    split.
    { split; [done|]. intros _. rewrite lookup_insert_eq. eauto. }
    intros _. eexists. split; [apply lookup_insert_eq|]. split; [|split].
    + intros peer. by rewrite (lookup_kmap to_string), lookup_fmap.
    + intros key. rewrite (lookup_kmap_is_Some to_string).
      intros (peer & -> & Hsome). exists peer. split; [done|].
      by rewrite lookup_fmap, fmap_is_Some in Hsome.
    + by rewrite (size_kmap_to_string _ Hinj), map_size_fmap.
Qed.

End Snapshot.

(** ** The theorems on the sample instance *)

(** Scenario A: three yes, one no, our vote no, proposing at time 30. *)
Lemma updateVote_proposing_witness :
  let s := Sample.dispute 3 1 false [(1, true); (2, true); (3, true); (4, false)]%N in
  ((mOurVote s = true ∧ mNays s ≠ 0) ∨ (mOurVote s = false ∧ mYays s ≠ 0)) ∧
  weight_no_overflow s ∧
  (mYays s * 100 + (if mOurVote s then 100 else 0)) ÷ (mNays s + mYays s + 1) = 60 ∧
  result (updateVote Sample.to_string Sample.av 30 true s) = true ∧
  mOurVote (after (updateVote Sample.to_string Sample.av 30 true s)) = true.
Proof.
  intros s.
  assert (Hg : (mOurVote s = true ∧ mNays s ≠ 0) ∨ (mOurVote s = false ∧ mYays s ≠ 0)).
  { right. split; [reflexivity|]. cbn. lia. }
  assert (Hrange : weight_no_overflow s).
  { unfold weight_no_overflow, CInt.INT_MAX. cbn. lia. }
  split; [exact Hg|]. split; [exact Hrange|].
  pose proof (updateVote_proposing Sample.to_string Sample.av 30 s Hg Hrange) as Hthm.
  cbv zeta in Hthm.
  destruct Hthm as (_ & _ & _ & _ & _ & _ & HA).
  destruct (HA eq_refl eq_refl eq_refl eq_refl eq_refl eq_refl eq_refl eq_refl)
    as (H60 & _ & Hres & Hour).
  split; [exact H60|]. split; [exact Hres|exact Hour].
Defined.

(** Scenario D, continued: a flip, removals of a known and of an unknown
    peer, and a late arrival. *)
Lemma tally_invariant_witness :
  let cs : list (@TallyCall N) :=
    [CallSetVote 1 true; CallSetVote 2 false; CallSetVote 1 false;
     CallUnVote 3; CallUnVote 2; CallSetVote 5 true]%N in
  let s := calls cs (Sample.fresh true) in
  Z.of_nat (size (voters cs)) <= CInt.INT_MAX ∧
  mYays s = 1 ∧ mNays s = 1 ∧
  mYays s + mNays s = Z.of_nat (size (mVotes s)) ∧
  0 <= mYays s ∧ 0 <= mNays s ∧
  NoDup (map_to_list (mVotes s)).*1.
Proof.
  intros cs s.
  assert (Hmax : Z.of_nat (size (voters cs)) <= CInt.INT_MAX).
  { vm_compute. discriminate. }
  split; [exact Hmax|]. split; [reflexivity|]. split; [reflexivity|].
  destruct (tally_invariant (λ tx : N, tx) 7%N true tt cs Hmax)
    as (Hsum & Hy & Hn & Hdup & _).
  split; [exact Hsum|]. split; [exact Hy|]. split; [exact Hn|exact Hdup].
Defined.

(** Our vote is yes and both peers vote yes: the proposing weight is 100,
    above the initial threshold. *)
Lemma early_exit_shortcut_witness :
  let s := Sample.dispute 2 0 true [(1, true); (2, true)]%N in
  0 <= mYays s ∧ 0 <= mNays s ∧
  (true = true → weight_no_overflow s ∧ 0 <= neededWeight Sample.av 30 < 100) ∧
  (true = false → mOurVote s = true → mYays s ≠ 0) ∧
  early_exit_is_shortcut Sample.to_string Sample.av 30 true s.
Proof.
  intros s.
  assert (Hy : 0 <= mYays s) by (cbn; lia).
  assert (Hn : 0 <= mNays s) by (cbn; lia).
  assert (Hth : true = true →
    weight_no_overflow s ∧ 0 <= neededWeight Sample.av 30 < 100).
  { intros _. unfold weight_no_overflow, CInt.INT_MAX. cbn. lia. }
  assert (Hnp : true = false → mOurVote s = true → mYays s ≠ 0).
  { intros Hf. discriminate Hf. }
  split; [exact Hy|]. split; [exact Hn|]. split; [exact Hth|]. split; [exact Hnp|].
  exact (early_exit_shortcut Sample.to_string Sample.av 30 true s Hy Hn Hth Hnp).
Defined.

(** [C3] (as stated) fails on a fresh object whose vote is yes, in a
    non-proposing call: no peer votes no, so [updateVote] returns early
    with [false]; lines 165-209 would compare zero yes with zero no, find
    the position no, and change our vote. *)
Lemma early_exit_not_shortcut_without_votes :
  let s := Sample.fresh true in
  guard_fires s ∧
  updateVote Sample.to_string Sample.av 30 false s = (false, s, []) ∧
  result (decidePosition Sample.to_string Sample.av 30 false s) = true ∧
  mOurVote (after (decidePosition Sample.to_string Sample.av 30 false s)) = false ∧
  ¬ early_exit_is_shortcut Sample.to_string Sample.av 30 false s.
Proof.
  intros s.
  assert (Hg : guard_fires s) by (left; split; reflexivity).
  split; [exact Hg|]. split; [reflexivity|]. split; [reflexivity|].
  split; [reflexivity|].
  intros Hshort. destruct (Hshort Hg) as [Hres _].
  vm_compute in Hres. discriminate Hres.
Qed.

(** A fresh object that votes yes: no peer votes no. *)
Lemma updateVote_early_exit_witness :
  let s := Sample.fresh true in
  ((mOurVote s = true ∧ mNays s = 0) ∨ (mOurVote s = false ∧ mYays s = 0)) ∧
  result (updateVote Sample.to_string Sample.av 90 true s) = false ∧
  mOurVote (after (updateVote Sample.to_string Sample.av 90 true s)) = true.
Proof.
  intros s.
  assert (Hg : (mOurVote s = true ∧ mNays s = 0) ∨ (mOurVote s = false ∧ mYays s = 0)).
  { left. split; reflexivity. }
  split; [exact Hg|].
  destruct (updateVote_early_exit Sample.to_string Sample.av 90 true s Hg)
    as (Hres & Hour & _).
  split; [exact Hres|exact Hour].
Defined.

(** Scenario C: two yes, two no, our vote yes, not proposing. *)
Lemma updateVote_not_proposing_witness :
  let s := Sample.dispute 2 2 true [(1, true); (2, true); (3, false); (4, false)]%N in
  mYays s = 2 ∧ mNays s = 2 ∧ mOurVote s = true ∧
  result (updateVote Sample.to_string Sample.av 30 false s) = true ∧
  mOurVote (after (updateVote Sample.to_string Sample.av 30 false s)) = false.
Proof.
  intros s.
  split; [reflexivity|]. split; [reflexivity|]. split; [reflexivity|].
  pose proof (updateVote_not_proposing Sample.to_string Sample.av 30 s) as Hthm.
  cbv zeta in Hthm. destruct Hthm as (_ & _ & _ & _ & HC).
  exact (HC eq_refl eq_refl eq_refl).
Defined.

(** The sample schedule is ordered; the threshold is 50 at time 30 and 70
    at time 90. *)
Lemma neededWeight_monotone_witness :
  AV_INIT_CONSENSUS_PCT Sample.av <= AV_MID_CONSENSUS_PCT Sample.av ∧
  AV_MID_CONSENSUS_PCT Sample.av <= AV_LATE_CONSENSUS_PCT Sample.av ∧
  AV_LATE_CONSENSUS_PCT Sample.av <= AV_STUCK_CONSENSUS_PCT Sample.av ∧
  30 <= 90 ∧
  neededWeight Sample.av 30 = 50 ∧ neededWeight Sample.av 90 = 70 ∧
  neededWeight Sample.av 30 <= neededWeight Sample.av 90.
Proof.
  assert (H1 : AV_INIT_CONSENSUS_PCT Sample.av <= AV_MID_CONSENSUS_PCT Sample.av)
    by (cbn; lia).
  assert (H2 : AV_MID_CONSENSUS_PCT Sample.av <= AV_LATE_CONSENSUS_PCT Sample.av)
    by (cbn; lia).
  assert (H3 : AV_LATE_CONSENSUS_PCT Sample.av <= AV_STUCK_CONSENSUS_PCT Sample.av)
    by (cbn; lia).
  assert (Ht : 30 <= 90) by lia.
  split; [exact H1|]. split; [exact H2|]. split; [exact H3|]. split; [exact Ht|].
  split; [reflexivity|]. split; [reflexivity|].
  exact (proj1 (neededWeight_monotone (Tx_t := N) (TxID_t := N) (NodeID_t := N)
                  (Journal := unit) Sample.av 30 90 H1 H2 H3 Ht)).
Defined.

(** Scenario D, second step: a peer that voted yes now votes no. *)
Lemma setVote_cases_witness :
  let s := Sample.dispute 1 0 true [(1, true)]%N in
  let s' := after (setVote 1%N false s) in
  mVotes s !! 1%N = Some (negb false) ∧
  CInt.incr_ok (counter false s) ∧ CInt.decr_ok (counter (negb false) s) ∧
  mVotes s' !! 1%N = Some false ∧
  mYays s' = 0 ∧ mNays s' = 1 ∧
  size (mVotes s') = size (mVotes s).
Proof.
  intros s s'.
  assert (Hold : mVotes s !! 1%N = Some (negb false)) by reflexivity.
  assert (Hi : CInt.incr_ok (counter false s)).
  { unfold CInt.incr_ok, CInt.INT_MIN, CInt.INT_MAX. cbn. lia. }
  assert (Hd : CInt.decr_ok (counter (negb false) s)).
  { unfold CInt.decr_ok, CInt.INT_MIN, CInt.INT_MAX. cbn. lia. }
  split; [exact Hold|]. split; [exact Hi|]. split; [exact Hd|].
  pose proof (setVote_cases 1%N false s) as Hthm.
  cbv zeta in Hthm. destruct Hthm as (_ & _ & _ & Hflip).
  destruct (Hflip Hold Hi Hd) as (_ & Hnow & Hup & Hdown & _ & Hsize).
  split; [exact Hnow|]. split; [exact Hdown|]. split; [exact Hup|exact Hsize].
Defined.

(** Scenario D, last step: the only peer is removed. *)
Lemma unVote_cases_witness :
  let s := Sample.dispute 0 1 true [(1, false)]%N in
  let s' := after (unVote 1%N s) in
  mVotes s !! 1%N = Some false ∧
  CInt.decr_ok (counter false s) ∧
  mVotes s' !! 1%N = None ∧ mNays s' = 0 ∧ mYays s' = 0 ∧
  (mVotes s !! 2%N = None ∧ after (unVote 2%N s) = s).
Proof.
  intros s s'.
  assert (Hold : mVotes s !! 1%N = Some false) by reflexivity.
  assert (Hrange : CInt.decr_ok (counter false s)).
  { unfold CInt.decr_ok, CInt.INT_MIN, CInt.INT_MAX. cbn. lia. }
  assert (Hnone : mVotes s !! 2%N = None) by reflexivity.
  split; [exact Hold|]. split; [exact Hrange|].
  destruct (proj1 (unVote_cases 1%N s) false Hold Hrange)
    as (_ & Hgone & Hdown & Hkeep & _).
  split; [exact Hgone|]. split; [exact Hdown|]. split; [exact Hkeep|].
  split; [exact Hnone|].
  exact (proj2 (proj2 (unVote_cases 2%N s) Hnone)).
Defined.

(** Scenario B: the proposing call on three yes, one no and our vote yes
    returns [false] and the vote stays. *)
Lemma updateVote_frame_witness :
  let s := Sample.dispute 3 1 true [(1, true); (2, true); (3, true); (4, false)]%N in
  let r := updateVote Sample.to_string Sample.av 30 true s in
  result r = false ∧ mOurVote (after r) = mOurVote s ∧
  mVotes (after r) = mVotes s ∧ mYays (after r) = 3 ∧ mNays (after r) = 1.
Proof.
  intros s r.
  pose proof (updateVote_frame Sample.to_string Sample.av 30 true s) as Hthm.
  cbv zeta in Hthm. destruct Hthm as (Hv & Hy & Hn & _ & _ & _ & Hiff).
  split; [reflexivity|]. split; [reflexivity|].
  split; [exact Hv|]. split; [exact Hy|exact Hn].
Defined.

(** The snapshot of one yes and one no. *)
Lemma getJson_snapshot_witness :
  let s := Sample.dispute 1 1 true [(1, true); (2, false)]%N in
  Inj (=) (=) Sample.to_string ∧
  mVotes s ≠ ∅ ∧
  after (getJson Sample.to_string s) = s ∧
  ∃ members votes,
    result (getJson Sample.to_string s) = JObject members ∧
    members !! "yays" = Some (JInt 1) ∧
    members !! "votes" = Some (JObject votes) ∧
    votes !! "1" = Some (JBool true) ∧ votes !! "2" = Some (JBool false) ∧
    size votes = 2%nat.
Proof.
  intros s.
  assert (Hinj : Inj (=) (=) Sample.to_string) by (unfold Sample.to_string; apply _).
  assert (Hne : mVotes s ≠ ∅).
  { intros He. apply (f_equal (λ m : gmap N bool, m !! 1%N)) in He.
    vm_compute in He. discriminate He. }
  split; [exact Hinj|]. split; [exact Hne|].
  pose proof (getJson_snapshot Sample.to_string s Hinj) as Hthm.
  cbv zeta in Hthm.
  destruct Hthm as (Hafter & _ & members & Hres & Hyays & _ & _ & _ & _ & Hvotes).
  destruct (Hvotes Hne) as (votes & Hmem & Hlook & _ & Hsize).
  split; [exact Hafter|].
  exists members, votes.
  split; [exact Hres|]. split; [exact Hyays|]. split; [exact Hmem|].
  split; [exact (Hlook 1%N)|]. split; [exact (Hlook 2%N)|exact Hsize].
Defined.

(** ** How the calls of the tally compose *)
Section TallyComposition.

Context {Tx_t TxID_t NodeID_t : Type}.
Context `{!EqDecision NodeID_t, !Countable NodeID_t}.
Context {Journal : Type}.

Local Abbreviation State := (@DisputedTx Tx_t TxID_t NodeID_t _ _ Journal).
Implicit Types (s : State) (peer : NodeID_t) (v votesYes : bool)
  (m : gmap NodeID_t bool) (c : @TallyCall NodeID_t)
  (cs : list (@TallyCall NodeID_t)) (P : gset NodeID_t).

(** The map after a call, whichever path the call takes. *)
Lemma mVotes_setVote peer votesYes s :
  mVotes (after (setVote peer votesYes s)) = <[peer := votesYes]> (mVotes s).
Proof.
  destruct (mVotes s !! peer) as [stored|] eqn:Hold.
  - destruct (decide (stored = votesYes)) as [->|Hne].
    + rewrite (setVote_same peer votesYes s Hold). cbn. by rewrite insert_id.
    + assert (stored = negb votesYes) as -> by (by destruct stored, votesYes).
      by rewrite (setVote_flip peer votesYes s Hold).
  - rewrite (setVote_new peer votesYes s Hold). by destruct votesYes.
Qed.

Lemma mVotes_unVote peer s :
  mVotes (after (unVote peer s)) = delete peer (mVotes s).
Proof.
  destruct (mVotes s !! peer) as [stored|] eqn:Hold.
  - by rewrite (unVote_present peer stored s Hold).
  - rewrite (unVote_absent peer s Hold). cbn. by rewrite delete_id.
Qed.

(** The members a call of the tally leaves alone. *)
Lemma call_frame c s : tally_frame s (after (call c s)).
Proof.
  destruct c as [peer votesYes|peer]; cbn [call].
  - destruct (mVotes s !! peer) as [stored|] eqn:Hold.
    + destruct (decide (stored = votesYes)) as [->|Hne].
      * by rewrite (setVote_same peer votesYes s Hold).
      * assert (stored = negb votesYes) as -> by (by destruct stored, votesYes).
        rewrite (setVote_flip peer votesYes s Hold). by destruct votesYes.
    + rewrite (setVote_new peer votesYes s Hold). by destruct votesYes.
  - destruct (mVotes s !! peer) as [stored|] eqn:Hold.
    + rewrite (unVote_present peer stored s Hold). by destruct stored.
    + by rewrite (unVote_absent peer s Hold).
Qed.

Lemma calls_frame cs s : tally_frame s (calls cs s).
Proof.
  revert s. induction cs as [|c cs IH]; intros s; [done|].
  change (calls (c :: cs) s) with (calls cs (after (call c s))).
  destruct (call_frame c s) as (H1 & H2 & H3 & H4).
  destruct (IH (after (call c s))) as (H1' & H2' & H3' & H4').
  unfold tally_frame. by rewrite H1', H2', H3', H4'.
Qed.

Lemma tally_frame_join s s1 s2 :
  tally_frame s s1 → tally_frame s s2 → tally_frame s1 s2.
Proof.
  unfold tally_frame. intros (A1 & A2 & A3 & A4) (B1 & B2 & B3 & B4).
  by rewrite A1, A2, A3, A4, B1, B2, B3, B4.
Qed.

(** An object whose counters agree with its map is determined by the map
    and the members the tally leaves alone. *)
Lemma tally_consistent_eq s1 s2 :
  tally_consistent s1 → tally_consistent s2 →
  mVotes s1 = mVotes s2 → tally_frame s1 s2 → s1 = s2.
Proof.
  destruct s1, s2. unfold tally_consistent, tally_frame. cbn.
  intros [-> ->] [-> ->] -> (-> & -> & -> & ->). done.
Qed.

Lemma size_with_peers m (X : gset NodeID_t) :
  (size (dom m ∪ X) ≤ size m + size X)%nat.
Proof.
  rewrite size_union_alt, size_dom.
  assert (Hsub : X ∖ dom m ⊆ X) by set_solver.
  apply subseteq_size in Hsub. lia.
Qed.

(** Stepping a counter up and down again. *)
Lemma decr_incr x : CInt.incr_ok x → CInt.decr (CInt.incr x) = x.
Proof.
  intros Hx. rewrite (CIntFacts.incr_exact _ Hx).
  rewrite CIntFacts.decr_exact; [lia|].
  unfold CInt.incr_ok, CInt.decr_ok in *. lia.
Qed.

(** [X1] Registering the vote of a peer that has no entry and removing it
    again gives back the object as it was, provided the counter of the
    vote can be incremented without overflow. *)
Theorem setVote_unVote_roundtrip peer votesYes s :
  mVotes s !! peer = None →
  CInt.incr_ok (counter votesYes s) →
  after (unVote peer (after (setVote peer votesYes s))) = s.
Proof.
  intros Hnew Hup.
  rewrite (unVote_present peer votesYes).
  2: { by rewrite mVotes_setVote, lookup_insert_eq. }
  rewrite (setVote_new peer votesYes s Hnew).
  destruct s as [id yays nays our t m j]. cbn in *.
  destruct votesYes; cbn in *; rewrite (decr_incr _ Hup), (delete_insert_id _ _ _ Hnew);
    done.
Qed.

(** [X2] The last vote of a peer is the one that counts: on an object
    whose counters agree with its map (and with room for one more peer in
    an [int]), registering a vote and then another for the same peer
    leaves the object that registering only the second leaves.  In
    particular a repeated registration changes nothing more. *)
Theorem setVote_last_wins peer v1 v2 s :
  tally_consistent s →
  Z.of_nat (size (mVotes s)) < CInt.INT_MAX →
  after (setVote peer v2 (after (setVote peer v1 s))) = after (setVote peer v2 s).
Proof.
  intros Hs Hsize.
  set (P := dom (mVotes s) ∪ {[peer]}).
  assert (HP : Z.of_nat (size P) <= CInt.INT_MAX).
  { pose proof (size_with_peers (mVotes s) {[peer]}) as Hle.
    rewrite size_singleton in Hle. subst P. lia. }
  assert (H2 : tally_consistent (calls [CallSetVote peer v1; CallSetVote peer v2] s)).
  { apply (calls_consistent P); [done|done|set_solver|cbn; set_solver]. }
  assert (H1 : tally_consistent (calls [CallSetVote peer v2] s)).
  { apply (calls_consistent P); [done|done|set_solver|cbn; set_solver]. }
  cbn in H1, H2. apply tally_consistent_eq; [done|done| |].
  - by rewrite !mVotes_setVote, insert_insert_eq.
  - apply (tally_frame_join s).
    + exact (calls_frame [CallSetVote peer v1; CallSetVote peer v2] s).
    + exact (calls_frame [CallSetVote peer v2] s).
Qed.

(** The map after a sequence of calls depends on the map before only. *)
Lemma mVotes_call c s :
  mVotes (after (call c s))
    = match c with
      | CallSetVote peer votesYes => <[peer := votesYes]> (mVotes s)
      | CallUnVote peer => delete peer (mVotes s)
      end.
Proof. destruct c; cbn [call]; [apply mVotes_setVote|apply mVotes_unVote]. Qed.

(** [X3] Calls about different peers commute: on an object whose counters
    agree with its map (and with room for two more peers in an [int]),
    two calls of [setVote] or [unVote] about different peers leave the
    same object in either order. *)
Theorem calls_commute c1 c2 s :
  call_peer c1 ≠ call_peer c2 →
  tally_consistent s →
  Z.of_nat (size (mVotes s)) + 2 <= CInt.INT_MAX →
  calls [c1; c2] s = calls [c2; c1] s.
Proof.
  intros Hne Hs Hsize.
  set (P := dom (mVotes s) ∪ {[call_peer c1; call_peer c2]}).
  assert (HP : Z.of_nat (size P) <= CInt.INT_MAX).
  { pose proof (size_with_peers (mVotes s) {[call_peer c1; call_peer c2]}) as Hle.
    assert (Hpair : size ({[call_peer c1; call_peer c2]} : gset NodeID_t) = 2%nat).
    { rewrite size_union by set_solver. by rewrite !size_singleton. }
    subst P. lia. }
  assert (H12 : tally_consistent (calls [c1; c2] s)).
  { apply (calls_consistent P); [done|done|set_solver|].
    destruct c1, c2; cbn; set_solver. }
  assert (H21 : tally_consistent (calls [c2; c1] s)).
  { apply (calls_consistent P); [done|done|set_solver|].
    destruct c1, c2; cbn; set_solver. }
  apply tally_consistent_eq; [done|done| |].
  - change (calls [c1; c2] s) with (after (call c2 (after (call c1 s)))).
    change (calls [c2; c1] s) with (after (call c1 (after (call c2 s)))).
    rewrite !mVotes_call.
    destruct c1 as [p1 w1|p1], c2 as [p2 w2|p2]; cbn in Hne.
    + by apply insert_insert_ne.
    + by rewrite delete_insert_ne.
    + by rewrite delete_insert_ne.
    + apply delete_delete.
  - apply (tally_frame_join s); apply calls_frame.
Qed.

(** [X4] The object is a function of the votes: two sequences of calls
    that, from an object whose counters agree with its map, arrive at the
    same map arrive at the same object (the peers involved fitting into
    an [int]). *)
Theorem calls_determined_by_votes P cs1 cs2 s :
  Z.of_nat (size P) <= CInt.INT_MAX →
  tally_consistent s →
  dom (mVotes s) ⊆ P → voters cs1 ⊆ P → voters cs2 ⊆ P →
  mVotes (calls cs1 s) = mVotes (calls cs2 s) →
  calls cs1 s = calls cs2 s.
Proof.
  intros HP Hs Hdom H1 H2 Hvotes.
  apply tally_consistent_eq; [by apply (calls_consistent P)..|done|].
  apply (tally_frame_join s); apply calls_frame.
Qed.

End TallyComposition.

(** ** More on the decision step *)
Section DecisionComposition.

Context {Tx_t TxID_t NodeID_t : Type}.
Context `{!EqDecision NodeID_t, !Countable NodeID_t}.
Context {Journal : Type}.
Variable to_string : NodeID_t → string.
Variable av : AvalancheParams.

Local Abbreviation State := (@DisputedTx Tx_t TxID_t NodeID_t _ _ Journal).
Implicit Types (s : State) (percentTime weight : Z) (proposing : bool).

(** What a call that changes our vote writes to the journal: the new
    vote, then the snapshot taken after the assignment. *)
Lemma decidePosition_logged_changed percentTime proposing s :
  (weigh av percentTime proposing s).2 ≠ mOurVote s →
  logged (decidePosition to_string av percentTime proposing s)
    = [(kDebug, WeNowVote (negb (mOurVote s)) (mTransactionID s));
       (kDebug, JsonDump (result (getJson to_string
          (set_mOurVote (negb (mOurVote s)) s))))].
Proof.
  unfold decidePosition, bind, this, ret, modify, JLOG. cbn.
  destruct (weigh av percentTime proposing s) as [weight newPosition]. cbn.
  intros Hne.
  assert (Hnew : newPosition = negb (mOurVote s))
    by (destruct newPosition, (mOurVote s); done).
  subst newPosition. rewrite eqb_negb1.
  destruct (getJson_pure to_string (set_mOurVote (negb (mOurVote s)) s)) as [_ Hl].
  destruct (getJson to_string (set_mOurVote (negb (mOurVote s)) s)) as [[j s1] l1].
  cbn in *. by subst l1.
Qed.

(** The object after [updateVote] differs from the one before in our
    vote at most. *)
Lemma updateVote_after percentTime proposing s :
  ∃ o, after (updateVote to_string av percentTime proposing s) = set_mOurVote o s.
Proof.
  destruct (guard_fires_dec s) as [Hg|Hg].
  - exists (mOurVote s). rewrite (updateVote_guarded to_string av _ _ s Hg).
    cbn. by rewrite set_mOurVote_same.
  - rewrite (updateVote_unguarded to_string av _ _ s Hg).
    destruct (decidePosition_outcome to_string av percentTime proposing s) as [_ Ha].
    eauto.
Qed.

(** [X6] What [updateVote] writes to the journal.  An early return writes
    nothing.  Past the early returns a call that keeps our vote writes an
    info line with our vote, the weight and the time, and a debug line
    with the snapshot; a call that changes our vote writes two debug
    lines, the new vote and the snapshot of the object after the change. *)
Theorem updateVote_logged percentTime proposing s :
  let r := updateVote to_string av percentTime proposing s in
  (guard_fires s → logged r = []) ∧
  (¬ guard_fires s → result r = false →
     logged r
       = [(kInfo, NoChange (mOurVote s) (weigh av percentTime proposing s).1 percentTime);
          (kDebug, JsonDump (result (getJson to_string s)))]) ∧
  (result r = true →
     logged r
       = [(kDebug, WeNowVote (negb (mOurVote s)) (mTransactionID s));
          (kDebug, JsonDump (result (getJson to_string (after r))))] ∧
     mOurVote (after r) = negb (mOurVote s)).
Proof.
  intros r. subst r. split; [|split].
  - intros Hg. by rewrite (updateVote_guarded to_string av _ _ s Hg).
  - intros Hg. rewrite (updateVote_unguarded to_string av _ _ s Hg).
    destruct (decidePosition_outcome to_string av percentTime proposing s) as [Hr _].
    rewrite Hr. intros Hsame. apply decidePosition_logged_same.
    destruct (eqb _ _) eqn:Heq; [by apply eqb_prop in Heq|done].
  - destruct (guard_fires_dec s) as [Hg|Hg].
    { by rewrite (updateVote_guarded to_string av _ _ s Hg). }
    rewrite (updateVote_unguarded to_string av _ _ s Hg).
    destruct (decidePosition_outcome to_string av percentTime proposing s) as [Hr Ha].
    rewrite Hr, Ha. intros Hchg.
    assert (Hne : (weigh av percentTime proposing s).2 ≠ mOurVote s).
    { intros Heq. rewrite Heq, eqb_reflx in Hchg. done. }
    assert (Hnew : (weigh av percentTime proposing s).2 = negb (mOurVote s))
      by (destruct (weigh av percentTime proposing s).2, (mOurVote s); done).
    rewrite Hnew. split; [|done].
    by apply decidePosition_logged_changed.
Qed.

(** The weight of the proposing branch is a percentage. *)
Lemma proposingWeight_bounds s :
  weight_no_overflow s → 0 <= proposingWeight s <= 100.
Proof.
  intros Hrange. rewrite (proposingWeight_exact s Hrange).
  destruct Hrange as (Hy & Hn & _ & _).
  rewrite Z.quot_div_nonneg by (destruct (mOurVote s); lia). split.
  - apply Z.div_pos; destruct (mOurVote s); lia.
  - apply Z.div_le_upper_bound; destruct (mOurVote s); lia.
Qed.

(** [X9] The weight of a proposing call is a percentage: with
    non-negative counters that do not overflow line 171 it lies between
    0 and 100.  So under a threshold of 100 or more no proposing call
    finds the position yes, and under a negative threshold every one
    does. *)
Theorem proposing_weight_percentage percentTime s :
  weight_no_overflow s →
  0 <= (weigh av percentTime true s).1 <= 100 ∧
  (100 <= neededWeight av percentTime → (weigh av percentTime true s).2 = false) ∧
  (neededWeight av percentTime < 0 → (weigh av percentTime true s).2 = true).
Proof.
  intros Hrange. pose proof (proposingWeight_bounds s Hrange) as Hw.
  cbn. rewrite proposingPosition_neededWeight. repeat split; lia.
Qed.

(** Our own yes adds to the weight. *)
Lemma proposingWeight_our_vote s :
  weight_no_overflow s →
  proposingWeight (set_mOurVote false s) <= proposingWeight (set_mOurVote true s).
Proof.
  intros (Hy & Hn & H100 & Hsum).
  rewrite !proposingWeight_exact by done. cbn.
  apply Z.quot_le_mono; lia.
Qed.

(** [X7] A decision is stable: right after [updateVote], a second call
    with the same time and mode returns [false] and leaves the object as
    the first call left it (for a proposing call: with counters for which
    line 171 does not overflow). *)
Theorem updateVote_idempotent percentTime proposing s :
  (proposing = true → weight_no_overflow s) →
  let s1 := after (updateVote to_string av percentTime proposing s) in
  result (updateVote to_string av percentTime proposing s1) = false ∧
  after (updateVote to_string av percentTime proposing s1) = s1.
Proof.
  intros Hrange s1.
  assert (Hkeep : ∀ s', (weigh av percentTime proposing s').2 = mOurVote s' →
    result (updateVote to_string av percentTime proposing s') = false ∧
    after (updateVote to_string av percentTime proposing s') = s').
  { intros s' Hsame. destruct (guard_fires_dec s') as [Hg|Hg].
    - by rewrite (updateVote_guarded to_string av _ _ s' Hg).
    - rewrite (updateVote_unguarded to_string av _ _ s' Hg).
      destruct (decidePosition_outcome to_string av percentTime proposing s') as [Hr Ha].
      by rewrite Hr, Ha, Hsame, eqb_reflx, set_mOurVote_same. }
  destruct (guard_fires_dec s) as [Hg|Hg].
  { assert (Hs1 : s1 = s).
    { subst s1. by rewrite (updateVote_guarded to_string av _ _ s Hg). }
    rewrite Hs1. by rewrite (updateVote_guarded to_string av _ _ s Hg). }
  assert (Hs1 : s1 = set_mOurVote (weigh av percentTime proposing s).2 s).
  { subst s1. rewrite (updateVote_unguarded to_string av _ _ s Hg).
    by destruct (decidePosition_outcome to_string av percentTime proposing s). }
  rewrite Hs1. apply Hkeep. cbn [mOurVote set_mOurVote].
  destruct proposing; [|done].
  specialize (Hrange eq_refl).
  pose proof (proposingWeight_our_vote s Hrange) as Hmono.
  cbn. rewrite !proposingPosition_neededWeight.
  destruct (mOurVote s) eqn:Hour.
  - assert (Hs : proposingWeight s = proposingWeight (set_mOurVote true s)).
    { unfold proposingWeight. cbn. by rewrite Hour. }
    destruct (proposingWeight s >? neededWeight av percentTime) eqn:Hpos.
    + by rewrite <- Hs.
    + lia.
  - assert (Hs : proposingWeight s = proposingWeight (set_mOurVote false s)).
    { unfold proposingWeight. cbn. by rewrite Hour. }
    destruct (proposingWeight s >? neededWeight av percentTime) eqn:Hpos.
    + lia.
    + by rewrite <- Hs.
Qed.

(** [X8] The ratchet of a proposing call, when the four percentages of
    the schedule are ordered.  A yes that [updateVote] gives up at some
    time it gives up at every later time; a no that it gives up at some
    time it gives up at every earlier time. *)
Theorem updateVote_ratchet t1 t2 s :
  AV_INIT_CONSENSUS_PCT av <= AV_MID_CONSENSUS_PCT av →
  AV_MID_CONSENSUS_PCT av <= AV_LATE_CONSENSUS_PCT av →
  AV_LATE_CONSENSUS_PCT av <= AV_STUCK_CONSENSUS_PCT av →
  t1 <= t2 →
  (mOurVote s = true →
     result (updateVote to_string av t1 true s) = true →
     result (updateVote to_string av t2 true s) = true) ∧
  (mOurVote s = false →
     result (updateVote to_string av t2 true s) = true →
     result (updateVote to_string av t1 true s) = true).
Proof.
  intros Him Hml Hls Ht.
  assert (Hmono : neededWeight av t1 <= neededWeight av t2).
  { unfold neededWeight. repeat case_match; lia. }
  destruct (guard_fires_dec s) as [Hg|Hg].
  { rewrite !(updateVote_guarded to_string av _ _ s Hg). done. }
  rewrite !(updateVote_unguarded to_string av _ _ s Hg).
  destruct (decidePosition_outcome to_string av t1 true s) as [Hr1 _].
  destruct (decidePosition_outcome to_string av t2 true s) as [Hr2 _].
  rewrite Hr1, Hr2. cbn. rewrite !proposingPosition_neededWeight.
  split; intros ->; cbn;
    destruct (proposingWeight s >? neededWeight av t1) eqn:H1,
             (proposingWeight s >? neededWeight av t2) eqn:H2; cbn; try done; lia.
Qed.

(** A quotient of non-negative numbers grows with the fraction. *)
Lemma div_le_cross a b c d :
  0 <= a → 0 < b → 0 < d → a * d <= c * b → a `div` b <= c `div` d.
Proof.
  intros Ha Hb Hd Hcross.
  apply Z.div_le_lower_bound; [done|].
  pose proof (Z.mul_div_le a b Hb) as Hq.
  assert (0 <= a `div` b) by (apply Z.div_pos; lia).
  nia.
Qed.

(** [X15] The decision follows the tally: with at least as many yes
    votes, at most as many no votes and our vote no less a yes, the
    weight of a proposing call is not lower, and a position found yes
    stays yes, in either mode (the counters being non-negative and not
    overflowing line 171). *)
Theorem decision_monotone percentTime proposing s s' :
  weight_no_overflow s → weight_no_overflow s' →
  mYays s <= mYays s' → mNays s' <= mNays s →
  (mOurVote s = true → mOurVote s' = true) →
  proposingWeight s <= proposingWeight s' ∧
  ((weigh av percentTime proposing s).2 = true →
   (weigh av percentTime proposing s').2 = true).
Proof.
  intros Hs Hs' Hy Hn Ho.
  assert (Hw : proposingWeight s <= proposingWeight s').
  { rewrite (proposingWeight_exact s Hs), (proposingWeight_exact s' Hs').
    destruct Hs as (Hy0 & Hn0 & _ & _), Hs' as (Hy0' & Hn0' & _ & _).
    rewrite !Z.quot_div_nonneg
      by (destruct (mOurVote s), (mOurVote s'); lia).
    apply div_le_cross; [destruct (mOurVote s); lia|lia|lia|].
    destruct (mOurVote s), (mOurVote s'); try (by specialize (Ho eq_refl)); nia. }
  split; [exact Hw|].
  destruct proposing; cbn.
  - rewrite !proposingPosition_neededWeight. lia.
  - lia.
Qed.

End DecisionComposition.

(** ** The object over its lifetime *)
Section Lifetime.

Context {Tx_t TxID_t NodeID_t : Type}.
Context `{!EqDecision NodeID_t, !Countable NodeID_t}.
Context {Journal : Type}.
Variable Tx_getID : Tx_t → TxID_t.
Variable to_string : NodeID_t → string.
Variable av : AvalancheParams.

Local Abbreviation State := (@DisputedTx Tx_t TxID_t NodeID_t _ _ Journal).
Implicit Types (s : State) (peer : NodeID_t) (votesYes : bool)
  (m : gmap NodeID_t bool) (P : gset NodeID_t)
  (c : @ApiCall NodeID_t) (cs : list (@ApiCall NodeID_t)).

(** [X5] What the tally writes to the journal.  [setVote] writes one
    debug line when it enters a peer ("votes") and one when it replaces
    the vote of a peer ("now votes"), each with the peer, the vote and
    the transaction; registering the vote a peer already holds writes
    nothing, and [unVote] never writes. *)
Theorem tally_logged peer votesYes s :
  logged (setVote peer votesYes s)
    = match mVotes s !! peer with
      | None => [(kDebug, PeerVotes peer votesYes (mTransactionID s))]
      | Some stored =>
          if bool_decide (stored = votesYes) then []
          else [(kDebug, PeerNowVotes peer votesYes (mTransactionID s))]
      end ∧
  logged (unVote peer s) = [].
Proof.
  split.
  - unfold setVote, mVotes_insert, mVotes_assign, bind, this, ret, modify, JLOG.
    destruct (mVotes s !! peer) as [stored|]; [destruct stored|];
      by destruct votesYes.
  - unfold unVote, mVotes_find, mVotes_erase, bind, this, ret, modify. cbn.
    destruct (mVotes s !! peer) as [stored|]; [by destruct stored|done].
Qed.

(** [X10] While no peer has an entry, [updateVote] keeps our vote: on an
    object whose counters agree with an empty map it returns [false],
    assigns nothing and writes nothing, whatever our vote, the time and
    the mode. *)
Theorem updateVote_without_votes percentTime proposing s :
  tally_consistent s → mVotes s = ∅ →
  updateVote to_string av percentTime proposing s = (false, s, []).
Proof.
  intros [Hy Hn] Hempty. apply updateVote_guarded.
  rewrite Hempty in Hy, Hn. unfold votes_for in Hy, Hn.
  rewrite map_filter_empty, map_size_empty in Hy, Hn.
  unfold guard_fires. destruct (mOurVote s); [left|right]; done.
Qed.

(** What a call of a member function may assign. *)
Lemma api_call_shape c s :
  (∃ o, api_call to_string av c s = set_mOurVote o s) ∨
  (∃ peer votesYes, c = ApiSetVote peer votesYes ∧
     api_call to_string av c s = after (call (CallSetVote peer votesYes) s)) ∨
  (∃ peer, c = ApiUnVote peer ∧
     api_call to_string av c s = after (call (CallUnVote peer) s)).
Proof.
  destruct c as [| | |o|peer votesYes|peer|percentTime proposing|]; cbn [api_call].
  - left. exists (mOurVote s). cbn. by rewrite set_mOurVote_same.
  - left. exists (mOurVote s). cbn. by rewrite set_mOurVote_same.
  - left. exists (mOurVote s). cbn. by rewrite set_mOurVote_same.
  - left. by exists o.
  - right. left. by exists peer, votesYes.
  - right. right. by exists peer.
  - left. apply updateVote_after.
  - left. exists (mOurVote s).
    rewrite (proj1 (getJson_pure to_string s)). by rewrite set_mOurVote_same.
Qed.

(** [X11] The transaction, its identifier and the journal are fixed at
    construction: after any sequence of calls of the public member
    functions they are what the constructor stored, and [getID] and [tx]
    return the identifier of the transaction given to the constructor
    and that transaction. *)
Theorem identity_fixed (txn : Tx_t) ourVote (j : Journal) cs :
  let s := api_calls to_string av cs (construct Tx_getID txn ourVote j) in
  mTransactionID s = Tx_getID txn ∧ transaction s = txn ∧ j_ s = j ∧
  result (getID s) = Tx_getID txn ∧ result (tx s) = txn.
Proof.
  intros s.
  assert (Hgen : ∀ cs s0, mTransactionID (api_calls to_string av cs s0) = mTransactionID s0 ∧
                          transaction (api_calls to_string av cs s0) = transaction s0 ∧
                          j_ (api_calls to_string av cs s0) = j_ s0).
  { clear. induction cs as [|c cs IH]; intros s0; [done|].
    change (api_calls to_string av (c :: cs) s0)
      with (api_calls to_string av cs (api_call to_string av c s0)).
    destruct (IH (api_call to_string av c s0)) as (-> & -> & ->).
    destruct (api_call_shape c s0) as [[o ->]|[(peer & v & _ & ->)|(peer & _ & ->)]].
    - done.
    - by destruct (call_frame (CallSetVote peer v) s0) as (-> & -> & _ & ->).
    - by destruct (call_frame (CallUnVote peer) s0) as (-> & -> & _ & ->). }
  destruct (Hgen cs (construct Tx_getID txn ourVote j)) as (H1 & H2 & H3).
  subst s. cbn in *. by rewrite H1, H2, H3.
Qed.

Lemma api_call_consistent P c s :
  Z.of_nat (size P) <= CInt.INT_MAX →
  tally_consistent s → dom (mVotes s) ⊆ P → api_voters [c] ⊆ P →
  tally_consistent (api_call to_string av c s) ∧
  dom (mVotes (api_call to_string av c s)) ⊆ P.
Proof.
  intros HP Hs Hdom Hvoters.
  destruct (api_call_shape c s) as [[o ->]|[(peer & v & -> & ->)|(peer & -> & ->)]].
  - done.
  - apply (call_consistent P); try done.
  - apply (call_consistent P); try done.
Qed.

(** [X12] The counters agree with the map over the whole life of the
    object: after any sequence of calls of the public member functions
    on a freshly constructed object (the peers registered being at most
    [INT_MAX]), [mYays] is the number of yes entries, [mNays] the number
    of no entries, and they add up to the size of the map. *)
Theorem tally_consistent_lifetime (txn : Tx_t) ourVote (j : Journal) cs :
  Z.of_nat (size (api_voters cs)) <= CInt.INT_MAX →
  let s := api_calls to_string av cs (construct Tx_getID txn ourVote j) in
  tally_consistent s ∧
  mYays s + mNays s = Z.of_nat (size (mVotes s)) ∧
  0 <= mYays s ∧ 0 <= mNays s.
Proof.
  intros Hmax s.
  assert (Hgen : ∀ cs s0 P, tally_consistent s0 →
            Z.of_nat (size P) <= CInt.INT_MAX →
            dom (mVotes s0) ⊆ P → api_voters cs ⊆ P →
            tally_consistent (api_calls to_string av cs s0)).
  { clear. induction cs as [|c cs IH]; intros s0 P Hs0 HP Hdom Hvoters; [done|].
    change (api_calls to_string av (c :: cs) s0)
      with (api_calls to_string av cs (api_call to_string av c s0)).
    destruct (api_call_consistent P c s0 HP Hs0 Hdom) as [Hs1 Hdom1].
    { destruct c; cbn in *; set_solver. }
    apply (IH _ P Hs1 HP Hdom1).
    destruct c; cbn in *; set_solver. }
  assert (Hs : tally_consistent s).
  { apply (Hgen cs _ (api_voters cs)); [|done|set_solver|done].
    split; cbn; unfold votes_for; by rewrite map_filter_empty, map_size_empty. }
  pose proof (size_votes_for_total (mVotes s)) as Htotal.
  split; [exact Hs|]. destruct Hs as [Hy Hn]. lia.
Qed.

End Lifetime.

(** ** More on the snapshot *)
Section SnapshotComposition.

Context {Tx_t TxID_t NodeID_t : Type}.
Context `{!EqDecision NodeID_t, !Countable NodeID_t}.
Context {Journal : Type}.
Variable to_string : NodeID_t → string.

Local Abbreviation State := (@DisputedTx Tx_t TxID_t NodeID_t _ _ Journal).
Implicit Types (s : State) (peer : NodeID_t) (votesYes : bool)
  (m : gmap NodeID_t bool).

(** The value [getJson] returns, when no two peers are printed alike. *)
Lemma getJson_value s :
  Inj (=) (=) to_string →
  result (getJson to_string s)
    = let base : gmap string JsonValue :=
        <["our_vote" := JBool (mOurVote s)]>
          (<["nays" := JInt (mNays s)]> (<["yays" := JInt (mYays s)]> ∅)) in
      JObject (if mVotes_empty s then base
               else <["votes" := JObject (kmap to_string (JBool <$> mVotes s))]> base).
Proof.
  intros Hinj. unfold getJson, bind, this, ret. cbn.
  destruct (mVotes_empty s); cbn; [done|].
  by rewrite (votesj_kmap to_string (mVotes s) Hinj).
Qed.

Lemma mVotes_empty_false s : mVotes s ≠ ∅ → mVotes_empty s = false.
Proof.
  intros Hne. destruct (mVotes_empty s) eqn:He; [|done].
  by apply mVotes_empty_spec in He.
Qed.

(** [X13] A registered vote shows in the snapshot: right after
    [setVote], [getJson] returns an object with a [votes] member that
    maps the printed peer to the vote just registered and every other
    peer as before (no two peers being printed alike). *)
Theorem snapshot_after_setVote peer votesYes s :
  Inj (=) (=) to_string →
  ∃ members votes,
    result (getJson to_string (after (setVote peer votesYes s))) = JObject members ∧
    members !! "votes" = Some (JObject votes) ∧
    votes !! to_string peer = Some (JBool votesYes) ∧
    (∀ other, other ≠ peer →
       votes !! to_string other = JBool <$> mVotes s !! other).
Proof.
  intros Hinj. rewrite (getJson_value _ Hinj). cbv zeta.
  rewrite mVotes_empty_false by (rewrite mVotes_setVote; apply insert_non_empty).
  eexists _, _. split; [done|]. split; [apply lookup_insert_eq|].
  rewrite mVotes_setVote. split.
  - by rewrite (lookup_kmap to_string), lookup_fmap, lookup_insert_eq.
  - intros other Hne.
    by rewrite (lookup_kmap to_string), lookup_fmap, lookup_insert_ne.
Qed.

(** [X14] A removed vote is gone from the snapshot: right after
    [unVote] the [votes] member, if there is one, has no entry for the
    printed peer and maps every other peer as before; and when the peer
    removed was the only one with an entry there is no [votes] member
    (no two peers being printed alike). *)
Theorem snapshot_after_unVote peer s :
  Inj (=) (=) to_string →
  ∃ members,
    result (getJson to_string (after (unVote peer s))) = JObject members ∧
    (∀ votes, members !! "votes" = Some (JObject votes) →
       votes !! to_string peer = None ∧
       ∀ other, other ≠ peer →
         votes !! to_string other = JBool <$> mVotes s !! other) ∧
    ((∀ other, other ≠ peer → mVotes s !! other = None) →
       members !! "votes" = None).
Proof.
  intros Hinj. rewrite (getJson_value _ Hinj). cbv zeta.
  eexists. split; [done|]. rewrite mVotes_unVote. split.
  - intros votes. destruct (mVotes_empty _); [done|].
    rewrite lookup_insert_eq. intros [= <-]. split.
    + by rewrite (lookup_kmap to_string), lookup_fmap, lookup_delete_eq.
    + intros other Hne.
      by rewrite (lookup_kmap to_string), lookup_fmap, lookup_delete_ne.
  - intros Honly.
    assert (Hempty : mVotes_empty (after (unVote peer s)) = true).
    { apply mVotes_empty_spec. rewrite mVotes_unVote. apply map_empty.
      intros other. destruct (decide (other = peer)) as [->|Hne].
      - apply lookup_delete_eq.
      - rewrite lookup_delete_ne by done. by apply Honly. }
    by rewrite Hempty.
Qed.

(** [X16] The snapshot of an object whose counters agree with its map is
    coherent: [yays] and [nays] add up to the number of members of
    [votes], or to zero when there is no such member (no two peers being
    printed alike). *)
Theorem snapshot_coherent s :
  Inj (=) (=) to_string →
  tally_consistent s →
  ∃ members yays nays,
    result (getJson to_string s) = JObject members ∧
    members !! "yays" = Some (JInt yays) ∧
    members !! "nays" = Some (JInt nays) ∧
    yays + nays
      = Z.of_nat (match members !! "votes" with
                  | Some (JObject votes) => size votes
                  | _ => 0
                  end).
Proof.
  intros Hinj [Hy Hn]. rewrite (getJson_value _ Hinj). cbv zeta.
  pose proof (size_votes_for_total (mVotes s)) as Htotal.
  destruct (mVotes_empty s) eqn:Hempty.
  - eexists _, _, _. split; [done|]. split; [done|]. split; [done|].
    apply mVotes_empty_spec in Hempty.
    rewrite Hempty, map_size_empty in Htotal. rewrite Hempty in Hy, Hn.
    rewrite !lookup_insert_ne, lookup_empty by done. lia.
  - eexists _, _, _. split; [done|]. split; [done|]. split; [done|].
    rewrite lookup_insert_eq, (size_kmap_to_string to_string _ Hinj), map_size_fmap.
    lia.
Qed.

(** [X17] Whatever [to_string] is, the [votes] member of the snapshot is
    there exactly when the map is not empty; each of its members is the
    printed form of a peer together with a vote some peer printed that
    way holds, the printed form of every peer with an entry is among
    them, and they are at most as many as the entries. *)
Theorem snapshot_votes_any_to_string s :
  ∃ members,
    result (getJson to_string s) = JObject members ∧
    (members !! "votes" = None ↔ mVotes s = ∅) ∧
    ∀ votesj, members !! "votes" = Some votesj →
      ∃ votes, votesj = JObject votes ∧
        (∀ key b, votes !! key = Some b →
           ∃ peer vote, key = to_string peer ∧ b = JBool vote ∧
                        mVotes s !! peer = Some vote) ∧
        (∀ peer, is_Some (mVotes s !! peer) → is_Some (votes !! to_string peer)) ∧
        (size votes ≤ size (mVotes s))%nat.
Proof.
  assert (Hloop : ∀ m, ∃ votes,
    map_fold (λ first second votesj, json_set (to_string first) (JBool second) votesj)
             objectValue m = JObject votes ∧
    (∀ key b, votes !! key = Some b →
       ∃ peer vote, key = to_string peer ∧ b = JBool vote ∧ m !! peer = Some vote) ∧
    (∀ peer, is_Some (m !! peer) → is_Some (votes !! to_string peer)) ∧
    (size votes ≤ size m)%nat).
  { intros m.
    apply (map_fold_weak_ind (λ r m, ∃ votes, r = JObject votes ∧
      (∀ key b, votes !! key = Some b →
         ∃ peer vote, key = to_string peer ∧ b = JBool vote ∧ m !! peer = Some vote) ∧
      (∀ peer, is_Some (m !! peer) → is_Some (votes !! to_string peer)) ∧
      (size votes ≤ size m)%nat)).
    - exists ∅. split; [done|]. split; [|split].
      + intros key b. by rewrite lookup_empty.
      + intros peer. rewrite lookup_empty. by intros [? ?].
      + done.
    - intros first second m' r Hnew (votes & -> & Hkeys & Hpeers & Hsize).
      exists (<[to_string first := JBool second]> votes).
      split; [done|]. split; [|split].
      + intros key b. rewrite lookup_insert_Some.
        intros [[<- <-]|[Hne Hkey]].
        * exists first, second. by rewrite lookup_insert_eq.
        * destruct (Hkeys key b Hkey) as (peer & vote & -> & -> & Hpeer).
          exists peer, vote. split; [done|]. split; [done|].
          rewrite lookup_insert_ne; [done|]. intros ->. congruence.
      + intros peer. rewrite !lookup_insert_is_Some'.
        intros [->|Hold]; [by left|right; by apply Hpeers].
      + rewrite (map_size_insert_None _ _ _ Hnew), map_size_insert.
        destruct (votes !! to_string first); cbn; lia. }
  unfold getJson, bind, this, ret. cbn.
  destruct (mVotes_empty s) eqn:Hempty; cbn.
  - apply mVotes_empty_spec in Hempty. eexists. split; [done|].
    split; [done|]. intros votesj Hv. done.
  - destruct (Hloop (mVotes s)) as (votes & -> & Hkeys & Hpeers & Hsize).
    eexists. split; [done|]. split.
    + rewrite lookup_insert_eq. split; [done|].
      intros He. apply mVotes_empty_spec in He. congruence.
    + intros votesj. rewrite lookup_insert_eq. intros [= <-]. eauto.
Qed.

End SnapshotComposition.

(** ** The further theorems on the sample instance *)

(** A third peer votes no and is removed again. *)
Lemma setVote_unVote_roundtrip_witness :
  let s := Sample.dispute 1 1 true [(1, true); (2, false)]%N in
  mVotes s !! 3%N = None ∧
  CInt.incr_ok (counter false s) ∧
  after (unVote 3%N (after (setVote 3%N false s))) = s.
Proof.
  intros s.
  assert (Hnew : mVotes s !! 3%N = None) by reflexivity.
  assert (Hup : CInt.incr_ok (counter false s)).
  { unfold CInt.incr_ok, CInt.INT_MIN, CInt.INT_MAX. cbn. lia. }
  split; [exact Hnew|]. split; [exact Hup|].
  exact (setVote_unVote_roundtrip 3%N false s Hnew Hup).
Defined.

(** Peer 1 votes no and then yes again. *)
Lemma setVote_last_wins_witness :
  let s := Sample.dispute 1 1 true [(1, true); (2, false)]%N in
  tally_consistent s ∧
  Z.of_nat (size (mVotes s)) < CInt.INT_MAX ∧
  after (setVote 1%N true (after (setVote 1%N false s))) = after (setVote 1%N true s).
Proof.
  intros s.
  assert (Hs : tally_consistent s) by (split; reflexivity).
  assert (Hsize : Z.of_nat (size (mVotes s)) < CInt.INT_MAX) by (vm_compute; reflexivity).
  split; [exact Hs|]. split; [exact Hsize|].
  exact (setVote_last_wins 1%N false true s Hs Hsize).
Defined.

(** The flip of peer 1 and the removal of peer 2, in either order. *)
Lemma calls_commute_witness :
  let s := Sample.dispute 1 1 true [(1, true); (2, false)]%N in
  let c1 : @TallyCall N := CallSetVote 1%N false in
  let c2 : @TallyCall N := CallUnVote 2%N in
  call_peer c1 ≠ call_peer c2 ∧
  tally_consistent s ∧
  Z.of_nat (size (mVotes s)) + 2 <= CInt.INT_MAX ∧
  calls [c1; c2] s = calls [c2; c1] s ∧
  mNays (calls [c1; c2] s) = 1 ∧ mYays (calls [c1; c2] s) = 0.
Proof.
  intros s c1 c2.
  assert (Hne : call_peer c1 ≠ call_peer c2) by (cbn; discriminate).
  assert (Hs : tally_consistent s) by (split; reflexivity).
  assert (Hsize : Z.of_nat (size (mVotes s)) + 2 <= CInt.INT_MAX)
    by (vm_compute; discriminate).
  split; [exact Hne|]. split; [exact Hs|]. split; [exact Hsize|].
  split; [exact (calls_commute c1 c2 s Hne Hs Hsize)|]. split; reflexivity.
Defined.

(** Two histories of the same votes. *)
Lemma calls_determined_by_votes_witness :
  let s := Sample.fresh true in
  let P : gset N := {[1; 2; 3]}%N in
  let cs1 : list (@TallyCall N) := [CallSetVote 1 true; CallSetVote 2 false]%N in
  let cs2 : list (@TallyCall N) :=
    [CallSetVote 2 true; CallSetVote 3 true; CallSetVote 1 true;
     CallUnVote 3; CallSetVote 2 false]%N in
  Z.of_nat (size P) <= CInt.INT_MAX ∧
  tally_consistent s ∧
  dom (mVotes s) ⊆ P ∧ voters cs1 ⊆ P ∧ voters cs2 ⊆ P ∧
  mVotes (calls cs1 s) = mVotes (calls cs2 s) ∧
  calls cs1 s = calls cs2 s.
Proof.
  intros s P cs1 cs2.
  assert (HP : Z.of_nat (size P) <= CInt.INT_MAX) by (vm_compute; discriminate).
  assert (Hs : tally_consistent s) by (split; reflexivity).
  assert (Hdom : dom (mVotes s) ⊆ P) by (apply (bool_decide_unpack _); vm_compute; exact I).
  assert (H1 : voters cs1 ⊆ P) by (apply (bool_decide_unpack _); vm_compute; exact I).
  assert (H2 : voters cs2 ⊆ P) by (apply (bool_decide_unpack _); vm_compute; exact I).
  assert (Hvotes : mVotes (calls cs1 s) = mVotes (calls cs2 s)) by reflexivity.
  split; [exact HP|]. split; [exact Hs|]. split; [exact Hdom|].
  split; [exact H1|]. split; [exact H2|]. split; [exact Hvotes|].
  exact (calls_determined_by_votes P cs1 cs2 s HP Hs Hdom H1 H2 Hvotes).
Defined.

(** A new vote, a repeated vote, a changed vote. *)
Lemma tally_logged_witness :
  let s := Sample.dispute 1 0 true [(1, true)]%N in
  logged (setVote 2%N false s) = [(kDebug, PeerVotes 2%N false 7%N)] ∧
  logged (setVote 1%N true s) = [] ∧
  logged (setVote 1%N false s) = [(kDebug, PeerNowVotes 1%N false 7%N)] ∧
  logged (unVote 1%N s) = [].
Proof.
  intros s.
  split; [exact (proj1 (tally_logged 2%N false s))|].
  split; [exact (proj1 (tally_logged 1%N true s))|].
  split; [exact (proj1 (tally_logged 1%N false s))|].
  exact (proj2 (tally_logged 1%N false s)).
Defined.

(** Scenario A: the call changes our vote and logs the new snapshot. *)
Lemma updateVote_logged_witness :
  let s := Sample.dispute 3 1 false [(1, true); (2, true); (3, true); (4, false)]%N in
  let r := updateVote Sample.to_string Sample.av 30 true s in
  result r = true ∧
  logged r
    = [(kDebug, WeNowVote true 7%N);
       (kDebug, JsonDump (result (getJson Sample.to_string (after r))))] ∧
  mOurVote (after r) = true.
Proof.
  intros s r.
  assert (Hres : result r = true) by reflexivity.
  split; [exact Hres|].
  pose proof (updateVote_logged Sample.to_string Sample.av 30 true s) as Hthm.
  cbv zeta in Hthm. destruct Hthm as (_ & _ & Hchg).
  exact (Hchg Hres).
Defined.

(** Scenario A, called twice. *)
Lemma updateVote_idempotent_witness :
  let s := Sample.dispute 3 1 false [(1, true); (2, true); (3, true); (4, false)]%N in
  let s1 := after (updateVote Sample.to_string Sample.av 30 true s) in
  (true = true → weight_no_overflow s) ∧
  mOurVote s1 = true ∧
  result (updateVote Sample.to_string Sample.av 30 true s1) = false ∧
  after (updateVote Sample.to_string Sample.av 30 true s1) = s1.
Proof.
  intros s s1.
  assert (Hrange : true = true → weight_no_overflow s).
  { intros _. unfold weight_no_overflow, CInt.INT_MAX. cbn. lia. }
  split; [exact Hrange|]. split; [reflexivity|].
  exact (updateVote_idempotent Sample.to_string Sample.av 30 true s Hrange).
Defined.

(** Two yes, one no, our vote yes: the weight is 75, kept at time 90
    (threshold 70) and given up at time 250 (threshold 95). *)
Lemma updateVote_ratchet_witness :
  let s := Sample.dispute 2 1 true [(1, true); (2, true); (3, false)]%N in
  AV_INIT_CONSENSUS_PCT Sample.av <= AV_MID_CONSENSUS_PCT Sample.av ∧
  AV_MID_CONSENSUS_PCT Sample.av <= AV_LATE_CONSENSUS_PCT Sample.av ∧
  AV_LATE_CONSENSUS_PCT Sample.av <= AV_STUCK_CONSENSUS_PCT Sample.av ∧
  200 <= 250 ∧
  mOurVote s = true ∧
  result (updateVote Sample.to_string Sample.av 90 true s) = false ∧
  result (updateVote Sample.to_string Sample.av 200 true s) = true ∧
  result (updateVote Sample.to_string Sample.av 250 true s) = true.
Proof.
  intros s.
  assert (H1 : AV_INIT_CONSENSUS_PCT Sample.av <= AV_MID_CONSENSUS_PCT Sample.av)
    by (cbn; lia).
  assert (H2 : AV_MID_CONSENSUS_PCT Sample.av <= AV_LATE_CONSENSUS_PCT Sample.av)
    by (cbn; lia).
  assert (H3 : AV_LATE_CONSENSUS_PCT Sample.av <= AV_STUCK_CONSENSUS_PCT Sample.av)
    by (cbn; lia).
  assert (Ht : 200 <= 250) by lia.
  assert (Hour : mOurVote s = true) by reflexivity.
  assert (H200 : result (updateVote Sample.to_string Sample.av 200 true s) = true)
    by reflexivity.
  split; [exact H1|]. split; [exact H2|]. split; [exact H3|]. split; [exact Ht|].
  split; [exact Hour|]. split; [reflexivity|]. split; [exact H200|].
  exact (proj1 (updateVote_ratchet Sample.to_string Sample.av 200 250 s H1 H2 H3 Ht)
           Hour H200).
Defined.

(** Two yes, one no, our vote yes: the weight is 75. *)
Lemma proposing_weight_percentage_witness :
  let s := Sample.dispute 2 1 true [(1, true); (2, true); (3, false)]%N in
  weight_no_overflow s ∧
  (weigh Sample.av 30 true s).1 = 75 ∧
  0 <= (weigh Sample.av 30 true s).1 <= 100.
Proof.
  intros s.
  assert (Hrange : weight_no_overflow s).
  { unfold weight_no_overflow, CInt.INT_MAX. cbn. lia. }
  split; [exact Hrange|]. split; [reflexivity|].
  exact (proj1 (proposing_weight_percentage (Tx_t := N) (TxID_t := N)
                  (Journal := unit) Sample.av 30 s Hrange)).
Defined.

(** A fresh object that votes yes, asked as a proposer late in the round. *)
Lemma updateVote_without_votes_witness :
  let s := Sample.fresh true in
  tally_consistent s ∧ mVotes s = ∅ ∧
  updateVote Sample.to_string Sample.av 250 true s = (false, s, []).
Proof.
  intros s.
  assert (Hs : tally_consistent s) by (split; reflexivity).
  assert (Hempty : mVotes s = ∅) by reflexivity.
  split; [exact Hs|]. split; [exact Hempty|].
  exact (updateVote_without_votes Sample.to_string Sample.av 250 true s Hs Hempty).
Defined.

(** A round of calls of every member function. *)
Lemma identity_fixed_witness :
  let cs : list (@ApiCall N) :=
    [ApiSetVote 1 false; ApiSetVote 2 false; ApiUpdateVote 30 true; ApiGetJson;
     ApiSetOurVote true; ApiUnVote 1; ApiGetID; ApiGetOurVote; ApiTx]%N in
  let s := api_calls Sample.to_string Sample.av cs (Sample.fresh true) in
  mOurVote s = true ∧ mNays s = 1 ∧
  mTransactionID s = 7%N ∧ transaction s = 7%N ∧
  result (getID s) = 7%N ∧ result (tx s) = 7%N.
Proof.
  intros cs s.
  destruct (identity_fixed (λ txn : N, txn) Sample.to_string Sample.av 7%N true tt cs)
    as (Hid & Htx & _ & Hgetid & Hgettx).
  split; [reflexivity|]. split; [reflexivity|].
  split; [exact Hid|]. split; [exact Htx|]. split; [exact Hgetid|exact Hgettx].
Defined.

Lemma tally_consistent_lifetime_witness :
  let cs : list (@ApiCall N) :=
    [ApiSetVote 1 false; ApiSetVote 2 false; ApiUpdateVote 30 true; ApiGetJson;
     ApiSetOurVote true; ApiUnVote 1; ApiSetVote 3 true]%N in
  let s := api_calls Sample.to_string Sample.av cs (Sample.fresh true) in
  Z.of_nat (size (api_voters cs)) <= CInt.INT_MAX ∧
  mYays s = 1 ∧ mNays s = 1 ∧
  tally_consistent s ∧
  mYays s + mNays s = Z.of_nat (size (mVotes s)).
Proof.
  intros cs s.
  assert (Hmax : Z.of_nat (size (api_voters cs)) <= CInt.INT_MAX)
    by (vm_compute; discriminate).
  split; [exact Hmax|]. split; [reflexivity|]. split; [reflexivity|].
  destruct (tally_consistent_lifetime (λ txn : N, txn) Sample.to_string Sample.av
              7%N true tt cs Hmax) as (Hs & Hsum & _).
  split; [exact Hs|exact Hsum].
Defined.

(** Peer 2 changes its vote to yes. *)
Lemma snapshot_after_setVote_witness :
  let s := Sample.dispute 1 1 true [(1, true); (2, false)]%N in
  Inj (=) (=) Sample.to_string ∧
  ∃ members votes,
    result (getJson Sample.to_string (after (setVote 2%N true s))) = JObject members ∧
    members !! "votes" = Some (JObject votes) ∧
    votes !! "2" = Some (JBool true) ∧ votes !! "1" = Some (JBool true).
Proof.
  intros s.
  assert (Hinj : Inj (=) (=) Sample.to_string) by (unfold Sample.to_string; apply _).
  split; [exact Hinj|].
  destruct (snapshot_after_setVote Sample.to_string 2%N true s Hinj)
    as (members & votes & Hres & Hmem & Hnew & Hold).
  exists members, votes.
  split; [exact Hres|]. split; [exact Hmem|]. split; [exact Hnew|].
  exact (Hold 1%N ltac:(discriminate)).
Defined.

(** Scenario D, last step: the snapshot after the only peer is removed. *)
Lemma snapshot_after_unVote_witness :
  let s := Sample.dispute 0 1 true [(1, false)]%N in
  Inj (=) (=) Sample.to_string ∧
  (∀ other, other ≠ 1%N → mVotes s !! other = None) ∧
  ∃ members,
    result (getJson Sample.to_string (after (unVote 1%N s))) = JObject members ∧
    members !! "votes" = None.
Proof.
  intros s.
  assert (Hinj : Inj (=) (=) Sample.to_string) by (unfold Sample.to_string; apply _).
  assert (Honly : ∀ other, other ≠ 1%N → mVotes s !! other = None).
  { intros other Hne. unfold s, Sample.dispute. cbn. by apply lookup_insert_None. }
  split; [exact Hinj|]. split; [exact Honly|].
  destruct (snapshot_after_unVote Sample.to_string 1%N s Hinj)
    as (members & Hres & _ & Hgone).
  exists members. split; [exact Hres|exact (Hgone Honly)].
Defined.

(** More yes votes and fewer no votes keep a yes. *)
Lemma decision_monotone_witness :
  let s := Sample.dispute 3 2 false [(1, true); (2, true); (3, true); (4, false); (5, false)]%N in
  let s' := Sample.dispute 4 1 false [(1, true); (2, true); (3, true); (4, false); (5, true)]%N in
  weight_no_overflow s ∧ weight_no_overflow s' ∧
  mYays s <= mYays s' ∧ mNays s' <= mNays s ∧
  (mOurVote s = true → mOurVote s' = true) ∧
  proposingWeight s = 50 ∧ proposingWeight s' = 66 ∧
  proposingWeight s <= proposingWeight s'.
Proof.
  intros s s'.
  assert (Hs : weight_no_overflow s).
  { unfold weight_no_overflow, CInt.INT_MAX. cbn. lia. }
  assert (Hs' : weight_no_overflow s').
  { unfold weight_no_overflow, CInt.INT_MAX. cbn. lia. }
  assert (Hy : mYays s <= mYays s') by (cbn; lia).
  assert (Hn : mNays s' <= mNays s) by (cbn; lia).
  assert (Ho : mOurVote s = true → mOurVote s' = true) by (cbn; discriminate).
  split; [exact Hs|]. split; [exact Hs'|]. split; [exact Hy|]. split; [exact Hn|].
  split; [exact Ho|]. split; [reflexivity|]. split; [reflexivity|].
  exact (proj1 (decision_monotone Sample.av 30 true s s' Hs Hs' Hy Hn Ho)).
Defined.

(** One yes and one no. *)
Lemma snapshot_coherent_witness :
  let s := Sample.dispute 1 1 true [(1, true); (2, false)]%N in
  Inj (=) (=) Sample.to_string ∧
  tally_consistent s ∧
  ∃ members yays nays,
    result (getJson Sample.to_string s) = JObject members ∧
    members !! "yays" = Some (JInt yays) ∧
    members !! "nays" = Some (JInt nays) ∧
    yays + nays
      = Z.of_nat (match members !! "votes" with
                  | Some (JObject votes) => size votes
                  | _ => 0
                  end).
Proof.
  intros s.
  assert (Hinj : Inj (=) (=) Sample.to_string) by (unfold Sample.to_string; apply _).
  assert (Hs : tally_consistent s) by (split; reflexivity).
  split; [exact Hinj|]. split; [exact Hs|].
  exact (snapshot_coherent Sample.to_string s Hinj Hs).
Defined.

(** Two peers printed alike: one member for both. *)
Lemma snapshot_votes_any_to_string_witness :
  let s := Sample.dispute 1 1 true [(1, true); (2, false)]%N in
  ∃ members votes,
    result (getJson (λ _ : N, "peer") s) = JObject members ∧
    members !! "votes" = Some (JObject votes) ∧
    size votes = 1%nat ∧ (size votes ≤ size (mVotes s))%nat.
Proof.
  intros s.
  destruct (snapshot_votes_any_to_string (λ _ : N, "peer") s)
    as (members & Hres & _ & Hvotes).
  assert (Hmem : ∃ votes, members !! "votes" = Some (JObject votes) ∧ size votes = 1%nat).
  { vm_compute in Hres. injection Hres as <-. eexists. split; reflexivity. }
  destruct Hmem as (votes & Hmem & Hone).
  destruct (Hvotes _ Hmem) as (votes' & Heq & _ & _ & Hsize).
  injection Heq as <-.
  exists members, votes.
  split; [exact Hres|]. split; [exact Hmem|]. split; [exact Hone|exact Hsize].
Defined.
